(** * Bulk-import pacing and readiness core

    A shallow embedding of
      - [ingest/restore/tidb.go]: metadata snapshots ([LoadSchemaInfo]), the
        schema readiness loop ([SyncSchema]), the primary-key predicates and
        the GC life-time accessors;
      - the rate-limited storage decorator ([WithRatelimit], its [Create] and
        the writer's [Write]).

    Go integers are [Z]; Go [string]s are [string]; a Go map keyed by strings
    is a [gmap string _]; a nil pointer result is [None]; a run-time panic is
    the [Panic] outcome.  Instants and durations are nanoseconds in [Z]. *)

From Stdlib Require Import ZArith String Ascii List Lia.
From stdpp Require Import gmap strings list fin_maps.

Local Open Scope Z_scope.

(** Go's [error] values that can reach the functions below. *)
Inductive error :=
| context_Canceled
| context_DeadlineExceeded
| rate_ExceedsBurst (n burst : Z)
| rate_WouldExceedDeadline (n : Z)
| sql_ErrNoRows
| sql_SyntaxError
| io_Error (msg : string).

#[global] Instance error_eq_dec : EqDecision error.
Proof. solve_decision. Defined.

(* ===================================================================== *)
(** ** The TiDB packages the importer links against *)
(* ===================================================================== *)

(** [github.com/pingcap/tidb/mysql]: column flag bits and type codes. *)
Module mysql.

Definition NotNullFlag : Z := Z.shiftl 1 0.
Definition PriKeyFlag : Z := Z.shiftl 1 1.
Definition AutoIncrementFlag : Z := Z.shiftl 1 9.

Definition HasPriKeyFlag (flag : Z) : bool := 0 <? Z.land flag PriKeyFlag.
Definition HasAutoIncrementFlag (flag : Z) : bool :=
  0 <? Z.land flag AutoIncrementFlag.

Definition TypeTiny : Z := 1.
Definition TypeShort : Z := 2.
Definition TypeLong : Z := 3.
Definition TypeLonglong : Z := 8.
Definition TypeInt24 : Z := 9.
Definition TypeVarchar : Z := 15.

(** The integer column types (those TiDB can use as a row handle). *)
Definition IsIntegerType (tp : Z) : bool :=
  (tp =? TypeTiny) || (tp =? TypeShort) || (tp =? TypeLong)
  || (tp =? TypeLonglong) || (tp =? TypeInt24).

End mysql.

(** [github.com/pingcap/tidb/model]: the schema metadata served by the
    cluster.  Only the fields the importer reads are kept. *)
Module model.

Inductive SchemaState :=
| StateNone
| StateDeleteOnly
| StateWriteOnly
| StateWriteReorganization
| StateDeleteReorganization
| StatePublic.

#[global] Instance SchemaState_eq_dec : EqDecision SchemaState.
Proof. solve_decision. Defined.

(** A case-insensitive name: [O] is the original spelling, [L] the lowered one. *)
Module CIStr.
Record t := { O : string; L : string }.
(** [func (cis CIStr) String() string { return cis.O }] *)
Definition String_ (cis : t) : string := O cis.
End CIStr.

Module ColumnInfo.
Record t := { ID : Z; Name : CIStr.t; Tp : Z; Flag : Z }.
End ColumnInfo.

Module IndexInfo.
Record t := { ID : Z; Name : CIStr.t }.
End IndexInfo.

Module TableInfo.
Record t := {
  ID : Z;
  Name : CIStr.t;
  Columns : list ColumnInfo.t;
  Indices : list IndexInfo.t;
  State : SchemaState;
  PKIsHandle : bool
}.
End TableInfo.

Module DBInfo.
Record t := {
  ID : Z;
  Name : CIStr.t;
  Tables : list TableInfo.t;
  State : SchemaState
}.
End DBInfo.

End model.

(* ===================================================================== *)
(** ** package restore *)
(* ===================================================================== *)

Module restore.

Import model.

Module TidbTableInfo.
Record t := {
  ID : Z;
  Name : string;
  Columns : Z;
  Indices : Z;
  Available : bool;
  core : TableInfo.t
}.
End TidbTableInfo.

Module TidbDBInfo.
Record t := {
  ID : Z;
  Name : string;
  Tables : gmap string TidbTableInfo.t;
  Available : bool
}.
End TidbDBInfo.

(** What the importer does to the outside world, in the order it does it. *)
Inductive Event :=
| EvGetInfoSchema
| EvLogError
| EvWarnTable (tableName : string) (state : SchemaState)
| EvWarnNotReady
| EvSleep (d : Z).

#[global] Instance Event_eq_dec : EqDecision Event.
Proof. solve_decision. Defined.

(** The manager holds the connection to the cluster ([store], [dom]).  The
    cluster is outside the program: it is represented by what a metadata read
    returns, as a function of how many reads were served before it.  [None]
    is a failed session creation. *)
Record TiDBManager := { infoSchemaAt : nat -> option (list DBInfo.t) }.

(** The state threaded through the calls is the number of metadata reads the
    cluster has served; every function also returns the events it emitted. *)
Definition GetInfoSchema (timgr : TiDBManager) (served : nat)
  : option (list DBInfo.t) * nat :=
  (infoSchemaAt timgr served, S served).

Definition time_Second : Z := 1000000000.

(** The inner [for _, tbl := range db.Tables] of [LoadSchemaInfo]. *)
Fixpoint LoadSchemaInfo_tables (tbls : list TableInfo.t)
    (Tables : gmap string TidbTableInfo.t)
  : gmap string TidbTableInfo.t * list Event :=
  match tbls with
  | [] => (Tables, [])
  | tbl :: rest =>
    let tableName := CIStr.String_ (TableInfo.Name tbl) in
    let tableInfo := {|
      TidbTableInfo.ID := TableInfo.ID tbl;
      TidbTableInfo.Name := tableName;
      TidbTableInfo.Columns := Z.of_nat (length (TableInfo.Columns tbl));
      TidbTableInfo.Indices := Z.of_nat (length (TableInfo.Indices tbl));
      TidbTableInfo.Available := bool_decide (TableInfo.State tbl = StatePublic);
      TidbTableInfo.core := tbl |} in
    let Tables := <[tableName := tableInfo]> Tables in
    let warn :=
      if negb (TidbTableInfo.Available tableInfo)
      then [EvWarnTable tableName (TableInfo.State tbl)] else [] in
    let '(Tables, log) := LoadSchemaInfo_tables rest Tables in
    (Tables, warn ++ log)
  end.

(** The outer [for _, db := range schemas]; [dbInfo] is the variable declared
    before the loop. *)
Fixpoint LoadSchemaInfo_schemas (schemas : list DBInfo.t) (database : string)
    (dbInfo : option TidbDBInfo.t) : option TidbDBInfo.t * list Event :=
  match schemas with
  | [] => (dbInfo, [])
  | db :: rest =>
    if bool_decide (CIStr.String_ (DBInfo.Name db) ≠ database)
    then LoadSchemaInfo_schemas rest database dbInfo
    else
      let '(Tables, log) := LoadSchemaInfo_tables (DBInfo.Tables db) ∅ in
      let dbInfo := {|
        TidbDBInfo.ID := DBInfo.ID db;
        TidbDBInfo.Name := CIStr.String_ (DBInfo.Name db);
        TidbDBInfo.Tables := Tables;
        TidbDBInfo.Available := bool_decide (DBInfo.State db = StatePublic) |} in
      let '(r, log') := LoadSchemaInfo_schemas rest database (Some dbInfo) in
      (r, log ++ log')
  end.

Definition LoadSchemaInfo (timgr : TiDBManager) (database : string)
    (served : nat) : option TidbDBInfo.t * nat * list Event :=
  let '(infoschema, served) := GetInfoSchema timgr served in
  match infoschema with
  | None => (None, served, [EvGetInfoSchema; EvLogError])
  | Some schemas =>
    let '(dbInfo, log) := LoadSchemaInfo_schemas schemas database None in
    (dbInfo, served, EvGetInfoSchema :: log)
  end.

(** How a call ends: it returns, or the Go run time panics. *)
Inductive outcome (A : Type) :=
| Return (a : A) (served : nat) (log : list Event)
| Panic (served : nat) (log : list Event).
Arguments Return {A} a served log.
Arguments Panic {A} served log.

(** [for _, tblInfo := range dbInfo.Tables { if !tblInfo.Available { done =
    false; break } }], over the entries in the order the map yields them. *)
Fixpoint SyncSchema_range (entries : list (string * TidbTableInfo.t))
    (done : bool) : bool :=
  match entries with
  | [] => done
  | (_, tblInfo) :: rest =>
    if negb (TidbTableInfo.Available tblInfo) then false
    else SyncSchema_range rest done
  end.

Definition maxAttempts : nat := 100.

(** The [for i := 0; i < 100; i++] loop, with [remaining = 100 - i].  A nil
    [dbInfo] makes [dbInfo.Tables] a nil-pointer dereference. *)
Fixpoint SyncSchema_loop (timgr : TiDBManager) (database : string)
    (remaining : nat) (served : nat) : outcome unit :=
  match remaining with
  | O => Return tt served []
  | S remaining =>
    let '(dbInfo, served, log) := LoadSchemaInfo timgr database served in
    match dbInfo with
    | None => Panic served log
    | Some dbInfo =>
      let done := SyncSchema_range (map_to_list (TidbDBInfo.Tables dbInfo)) true in
      if negb done then
        match SyncSchema_loop timgr database remaining served with
        | Return r served log' =>
            Return r served (log ++ [EvWarnNotReady; EvSleep (time_Second * 5)] ++ log')
        | Panic served log' =>
            Panic served (log ++ [EvWarnNotReady; EvSleep (time_Second * 5)] ++ log')
        end
      else Return tt served log
    end
  end.

Definition SyncSchema (timgr : TiDBManager) (database : string) (served : nat)
  : outcome (option TidbDBInfo.t) :=
  match SyncSchema_loop timgr database maxAttempts served with
  | Panic served log => Panic served log
  | Return _ served log =>
    let '(dbInfo, served, log') := LoadSchemaInfo timgr database served in
    Return dbInfo served (log ++ log')
  end.

(** *** Derived predicates of a table snapshot *)

Fixpoint WithExplicitPrimaryKey_range (cols : list ColumnInfo.t) : bool :=
  match cols with
  | [] => false
  | col :: rest =>
    if mysql.HasPriKeyFlag (ColumnInfo.Flag col) then true
    else WithExplicitPrimaryKey_range rest
  end.

Definition WithExplicitPrimaryKey (tbl : TidbTableInfo.t) : bool :=
  WithExplicitPrimaryKey_range (TableInfo.Columns (TidbTableInfo.core tbl)).

Definition WithIntegerPrimaryKey (tbl : TidbTableInfo.t) : bool :=
  TableInfo.PKIsHandle (TidbTableInfo.core tbl).

Fixpoint WithAutoIncrPrimaryKey_range (cols : list ColumnInfo.t) : bool :=
  match cols with
  | [] => false
  | col :: rest =>
    if mysql.HasPriKeyFlag (ColumnInfo.Flag col)
       && mysql.HasAutoIncrementFlag (ColumnInfo.Flag col)
    then true
    else WithAutoIncrPrimaryKey_range rest
  end.

Definition WithAutoIncrPrimaryKey (tbl : TidbTableInfo.t) : bool :=
  WithAutoIncrPrimaryKey_range (TableInfo.Columns (TidbTableInfo.core tbl)).

(** *** Vocabulary for the statements about snapshots and polling *)

(** The snapshot entry [ti] was built from the table [tbl]. *)
Definition reflects (ti : TidbTableInfo.t) (tbl : TableInfo.t) : Prop :=
  TidbTableInfo.core ti = tbl
  ∧ TidbTableInfo.ID ti = TableInfo.ID tbl
  ∧ TidbTableInfo.Name ti = CIStr.String_ (TableInfo.Name tbl)
  ∧ TidbTableInfo.Columns ti = Z.of_nat (length (TableInfo.Columns tbl))
  ∧ TidbTableInfo.Indices ti = Z.of_nat (length (TableInfo.Indices tbl))
  ∧ (TidbTableInfo.Available ti = true ↔ TableInfo.State tbl = StatePublic).

(** Every table of the snapshot is available. *)
Definition AllAvailable (dbInfo : TidbDBInfo.t) : Prop :=
  map_Forall (λ _ ti, TidbTableInfo.Available ti = true) (TidbDBInfo.Tables dbInfo).

(** The snapshot a load returns when the cluster has served [n] reads. *)
Definition snapshotAt (timgr : TiDBManager) (database : string) (n : nat)
  : option TidbDBInfo.t :=
  (LoadSchemaInfo timgr database n).1.1.

(** Counting from [served], the first [k] loads find the database with some
    table unavailable and every later load finds all of its tables available. *)
Definition ready_after (timgr : TiDBManager) (database : string)
    (served k : nat) : Prop :=
  (∀ j, (j < k)%nat → ∃ dbInfo,
      snapshotAt timgr database (served + j) = Some dbInfo ∧ ¬ AllAvailable dbInfo)
  ∧ (∀ j, (k ≤ j)%nat → ∃ dbInfo,
      snapshotAt timgr database (served + j) = Some dbInfo ∧ AllAvailable dbInfo).

(** Every load from [served] on finds the database with some table unavailable. *)
Definition never_ready (timgr : TiDBManager) (database : string)
    (served : nat) : Prop :=
  ∀ j, ∃ dbInfo,
    snapshotAt timgr database (served + j) = Some dbInfo ∧ ¬ AllAvailable dbInfo.

(** The metadata reads and the sleeps of a log, in order. *)
Definition is_timing (e : Event) : bool :=
  match e with
  | EvGetInfoSchema | EvSleep _ => true
  | _ => false
  end.

Definition schedule (log : list Event) : list Event := List.filter is_timing log.

Definition is_poll (e : Event) : bool :=
  match e with
  | EvGetInfoSchema => true
  | _ => false
  end.

Definition polls (log : list Event) : nat := length (List.filter is_poll log).

Definition sleeps (log : list Event) : list Z :=
  omap (λ e, match e with EvSleep d => Some d | _ => None end) log.

(** One failed attempt of the loop: a load, then the five-second sleep. *)
Definition failed_attempt : list Event := [EvGetInfoSchema; EvSleep (time_Second * 5)].

(** *** Clusters to run the functions on *)

Definition CIStr_of (s : string) : CIStr.t := {| CIStr.O := s; CIStr.L := s |}.

Definition idColumn (flag : Z) : ColumnInfo.t :=
  {| ColumnInfo.ID := 1; ColumnInfo.Name := CIStr_of "id";
     ColumnInfo.Tp := mysql.TypeLong; ColumnInfo.Flag := flag |}.

Definition demoTable (id : Z) (name : string) (state : SchemaState) : TableInfo.t :=
  {| TableInfo.ID := id; TableInfo.Name := CIStr_of name;
     TableInfo.Columns :=
       [idColumn (Z.lor mysql.NotNullFlag
                    (Z.lor mysql.PriKeyFlag mysql.AutoIncrementFlag))];
     TableInfo.Indices := []; TableInfo.State := state;
     TableInfo.PKIsHandle := true |}.

Definition demoSchemas (state : SchemaState) : list DBInfo.t :=
  [ {| DBInfo.ID := 1; DBInfo.Name := CIStr_of "mysql"; DBInfo.Tables := [];
       DBInfo.State := StatePublic |};
    {| DBInfo.ID := 2; DBInfo.Name := CIStr_of "test";
       DBInfo.Tables := [demoTable 45 "t1" StatePublic; demoTable 47 "t2" state];
       DBInfo.State := StatePublic |} ].

(** Table [t2] is still being propagated during the first [k] reads. *)
Definition readyAfter (k : nat) : TiDBManager :=
  {| infoSchemaAt := λ n,
       Some (demoSchemas (if Nat.ltb n k then StateWriteOnly else StatePublic)) |}.

Definition neverReady : TiDBManager :=
  {| infoSchemaAt := λ _, Some (demoSchemas StateWriteOnly) |}.

(** Table [t2] never becomes public: it is delete-only during the first 100
    reads and write-only from then on. *)
Definition stillPropagating : TiDBManager :=
  {| infoSchemaAt := λ n,
       Some (demoSchemas (if Nat.ltb n 100 then StateDeleteOnly else StateWriteOnly)) |}.

(** The state of table [tableName]'s definition in a snapshot. *)
Definition stateOf (tableName : string) (dbInfo : option TidbDBInfo.t)
  : option SchemaState :=
  dbInfo ≫= λ d, TidbDBInfo.Tables d !! tableName
         ≫= λ ti, Some (TableInfo.State (TidbTableInfo.core ti)).

(** The metadata read itself fails. *)
Definition unreachable : TiDBManager := {| infoSchemaAt := λ _, None |}.

(** *** GC life time

    [database/sql]: the handle reaches the cluster's [mysql.tidb] table, kept
    as the finite map from [VARIABLE_NAME] to [VARIABLE_VALUE].  The SQL
    engine is outside the program; it is represented for the two statement
    shapes the importer sends, with MySQL's reading of a quoted literal (a
    doubled quote is one quote, a backslash escapes the next character).  A
    text of any other shape is answered with a syntax error. *)
Module sql.

Record DB := { mysql_tidb : gmap string string }.

Definition quote : ascii := "'"%char.
(** Code 92, the backslash. *)
Definition backslash : ascii := ascii_of_nat 92.

Fixpoint strip_prefix (p s : string) : option string :=
  match p with
  | EmptyString => Some s
  | String a p =>
    match s with
    | EmptyString => None
    | String b s => if bool_decide (a = b) then strip_prefix p s else None
    end
  end.

(** The character sequence an escape [\c] stands for. *)
Definition unescape (c : ascii) : string :=
  if bool_decide (c = "0"%char) then String (ascii_of_nat 0) EmptyString
  else if bool_decide (c = "b"%char) then String (ascii_of_nat 8) EmptyString
  else if bool_decide (c = "n"%char) then String (ascii_of_nat 10) EmptyString
  else if bool_decide (c = "r"%char) then String (ascii_of_nat 13) EmptyString
  else if bool_decide (c = "t"%char) then String (ascii_of_nat 9) EmptyString
  else if bool_decide (c = "Z"%char) then String (ascii_of_nat 26) EmptyString
  else if bool_decide (c = "%"%char) then String backslash (String c EmptyString)
  else if bool_decide (c = "_"%char) then String backslash (String c EmptyString)
  else String c EmptyString.

(** Reads a literal after its opening quote: its value and the text that
    follows the closing quote. *)
Fixpoint lex_quoted (s : string) : option (string * string) :=
  match s with
  | EmptyString => None
  | String c r =>
    if bool_decide (c = quote) then
      match r with
      | EmptyString => Some (EmptyString, EmptyString)
      | String c' r' =>
        if bool_decide (c' = quote) then
          match lex_quoted r' with
          | Some (v, rest) => Some (String quote v, rest)
          | None => None
          end
        else Some (EmptyString, r)
      end
    else if bool_decide (c = backslash) then
      match r with
      | EmptyString => None
      | String c' r' =>
        match lex_quoted r' with
        | Some (v, rest) => Some (unescape c' +:+ v, rest)
        | None => None
        end
      end
    else
      match lex_quoted r with
      | Some (v, rest) => Some (String c v, rest)
      | None => None
      end
  end.

(** [UPDATE mysql.tidb SET VARIABLE_VALUE = '<v>' WHERE VARIABLE_NAME = '<k>'] *)
Definition parse_update (query : string) : option (string * string) :=
  match strip_prefix "UPDATE mysql.tidb SET VARIABLE_VALUE = '" query with
  | None => None
  | Some r =>
    match lex_quoted r with
    | None => None
    | Some (v, r) =>
      match strip_prefix " WHERE VARIABLE_NAME = '" r with
      | None => None
      | Some r =>
        match lex_quoted r with
        | Some (k, EmptyString) => Some (v, k)
        | _ => None
        end
      end
    end
  end.

(** [SELECT VARIABLE_VALUE FROM mysql.tidb WHERE VARIABLE_NAME = '<k>'] *)
Definition parse_select (query : string) : option string :=
  match strip_prefix "SELECT VARIABLE_VALUE FROM mysql.tidb WHERE VARIABLE_NAME = '" query with
  | None => None
  | Some r =>
    match lex_quoted r with
    | Some (k, EmptyString) => Some k
    | _ => None
    end
  end.

(** [db.Exec]: an UPDATE rewrites the row it matches and touches nothing when
    no row matches. *)
Definition Exec (db : DB) (query : string) : DB * option error :=
  match parse_update query with
  | None => (db, Some sql_SyntaxError)
  | Some (v, k) =>
    match mysql_tidb db !! k with
    | Some _ => ({| mysql_tidb := <[k := v]> (mysql_tidb db) |}, None)
    | None => (db, None)
    end
  end.

(** [db.QueryRow(query).Scan(&dest)]: the value, or the deferred error. *)
Definition QueryRow_Scan (db : DB) (query : string) : string + error :=
  match parse_select query with
  | None => inr sql_SyntaxError
  | Some k =>
    match mysql_tidb db !! k with
    | Some v => inl v
    | None => inr sql_ErrNoRows
    end
  end.

End sql.

Definition ObtainGCLifeTime (db : sql.DB) : string * option error :=
  match sql.QueryRow_Scan db
    "SELECT VARIABLE_VALUE FROM mysql.tidb WHERE VARIABLE_NAME = 'tikv_gc_life_time'" with
  | inr err => (EmptyString, Some err)
  | inl gcLifeTime => (gcLifeTime, None)
  end.

(** [fmt.Sprintf] with the single [%s] verb of the UPDATE text. *)
Definition UpdateGCLifeTime_query (gcLifeTime : string) : string :=
  "UPDATE mysql.tidb SET VARIABLE_VALUE = '" +:+ gcLifeTime
    +:+ "' WHERE VARIABLE_NAME = 'tikv_gc_life_time'".

Definition UpdateGCLifeTime (db : sql.DB) (gcLifeTime : string)
  : sql.DB * option error :=
  sql.Exec db (UpdateGCLifeTime_query gcLifeTime).

(** A value with no quote and no backslash in it. *)
Fixpoint plain_value (s : string) : bool :=
  match s with
  | EmptyString => true
  | String c r =>
    negb (bool_decide (c = sql.quote)) && negb (bool_decide (c = sql.backslash))
    && plain_value r
  end.

(** *** Schema bootstrap: [toCreateTableIfNotExists], [safeCreateTable], [InitSchema] *)

(** The functions of Go's [strings] package the bootstrap uses.  A Go string
    is its sequence of bytes. *)
Module gostrings.

Definition len (s : string) : Z := Z.of_nat (String.length s).

Fixpoint take (n : nat) (s : string) : string :=
  match n, s with
  | S n, String c r => String c (take n r)
  | _, _ => EmptyString
  end.

Fixpoint drop (n : nat) (s : string) : string :=
  match n, s with
  | S n, String _ r => drop n r
  | _, _ => s
  end.

(** [s[i:]], which panics ([None]) when [i] is out of range. *)
Definition slice_from (s : string) (i : Z) : option string :=
  if (i <? 0) || (len s <? i) then None else Some (drop (Z.to_nat i) s).

Fixpoint HasPrefix (s prefix : string) : bool :=
  match prefix with
  | EmptyString => true
  | String a p =>
    match s with
    | EmptyString => false
    | String b r => bool_decide (a = b) && HasPrefix r p
    end
  end.

Fixpoint index (s substr : string) : option nat :=
  if HasPrefix s substr then Some 0%nat
  else
    match s with
    | EmptyString => None
    | String _ r => S <$> index r substr
    end.

(** [strings.Index]: the first position of [substr] in [s], or -1. *)
Definition Index (s substr : string) : Z :=
  match index s substr with
  | Some i => Z.of_nat i
  | None => -1
  end.

(** [strings.SplitN(s, sep, 2)] for a non-empty [sep]: cut at the first
    occurrence of [sep], or [s] alone when there is none. *)
Definition SplitN_2 (s sep : string) : list string :=
  let m := Index s sep in
  if m <? 0 then [s]
  else [take (Z.to_nat m) s; drop (Z.to_nat (m + len sep)) s].

Definition is_ascii_byte (c : ascii) : bool := Nat.ltb (nat_of_ascii c) 128.

Fixpoint isASCII (s : string) : bool :=
  match s with
  | EmptyString => true
  | String c r => is_ascii_byte c && isASCII r
  end.

(** ['a' <= c && c <= 'z'] maps to [c - ('a' - 'A')]. *)
Definition upper_byte (c : ascii) : ascii :=
  if Nat.leb 97 (nat_of_ascii c) && Nat.leb (nat_of_ascii c) 122
  then ascii_of_nat (nat_of_ascii c - 32) else c.

Fixpoint map_bytes (f : ascii → ascii) (s : string) : string :=
  match s with
  | EmptyString => EmptyString
  | String c r => String (f c) (map_bytes f r)
  end.

(** [strings.ToUpper]: byte-wise on a string of ASCII bytes; otherwise the
    Unicode mapping of the Go library, which is taken as given. *)
Definition ToUpper (unicode_ToUpper : string → string) (s : string) : string :=
  if isASCII s then map_bytes upper_byte s else unicode_ToUpper s.

End gostrings.

(** How a call of the bootstrap ends: it returns its [error] result, or the
    Go run time panics on the slice expression. *)
Inductive ddl_outcome :=
| Done (err : option error)
| Panicked.

(** What the bootstrap does to its session, with the result of each step. *)
Inductive DDLEvent :=
| EvCreateSession (err : option error)
| EvExecute (query : string) (err : option error)
| EvSessionClose.

(** The cluster as the bootstrap sees it, over a state [Σ] of its own:
    whether a session can be created, and what executing a statement does. *)
Record Cluster (Σ : Type) := {
  CreateSession : Σ → option error;
  Execute : Σ → string → Σ * option error
}.
Arguments CreateSession {Σ} _ _.
Arguments Execute {Σ} _ _ _.

Section Bootstrap.
Variable unicode_ToUpper : string → string.
Context {Σ : Type} (cluster : Cluster Σ).

Definition toCreateTableIfNotExists (createTable : string) : option string :=
  let upCreateTable := gostrings.ToUpper unicode_ToUpper createTable in
  if gostrings.Index upCreateTable "CREATE TABLE IF NOT EXISTS" <? 0 then
    let substrs := gostrings.SplitN_2 upCreateTable "CREATE TABLE" in
    match substrs with
    | [prefix; schema] =>
      match gostrings.slice_from createTable
              (gostrings.len createTable - gostrings.len schema) with
      | Some tail => Some (prefix +:+ " CREATE TABLE IF NOT EXISTS " +:+ tail)
      | None => None
      end
    | _ => Some createTable
    end
  else Some createTable.

(** [errors.Trace] only annotates the error; it is kept as it is. *)
Definition safeCreateTable (σ : Σ) (createTable : string)
  : ddl_outcome * Σ * list DDLEvent :=
  match toCreateTableIfNotExists createTable with
  | None => (Panicked, σ, [])
  | Some createTable =>
    let '(σ, err) := Execute cluster σ createTable in
    (Done err, σ, [EvExecute createTable err])
  end.

(** [for _, sqlCreateTable := range tablesSchema], over the entries in the
    order the map yields them. *)
Fixpoint InitSchema_range (entries : list (string * string)) (σ : Σ)
  : ddl_outcome * Σ * list DDLEvent :=
  match entries with
  | [] => (Done None, σ, [])
  | (_, sqlCreateTable) :: rest =>
    let '(r, σ, log) := safeCreateTable σ sqlCreateTable in
    match r with
    | Done None =>
      let '(r, σ, log') := InitSchema_range rest σ in (r, σ, log ++ log')
    | _ => (r, σ, log)
    end
  end.

(** The deferred [se.Close()] runs on every way out once the session exists. *)
Definition InitSchema (σ : Σ) (database : string)
    (tablesSchema : gmap string string) : ddl_outcome * Σ * list DDLEvent :=
  match CreateSession cluster σ with
  | Some err => (Done (Some err), σ, [EvCreateSession (Some err)])
  | None =>
    let q1 := "CREATE DATABASE IF NOT EXISTS " +:+ database in
    let '(σ, err1) := Execute cluster σ q1 in
    let q2 := "USE " +:+ database in
    let '(σ, err) := Execute cluster σ q2 in
    let pre := [EvCreateSession None; EvExecute q1 err1; EvExecute q2 err] in
    match err with
    | Some err => (Done (Some err), σ, pre ++ [EvSessionClose])
    | None =>
      let '(r, σ, log) := InitSchema_range (map_to_list tablesSchema) σ in
      (r, σ, pre ++ log ++ [EvSessionClose])
    end
  end.

End Bootstrap.

(** A cluster that keeps the statements it executed and refuses every
    statement containing [reject]. *)
Definition recordingCluster (reject : string) : Cluster (list string) :=
  {| CreateSession := λ _, None;
     Execute := λ σ q,
       if 0 <=? gostrings.Index q reject
       then (σ, Some sql_SyntaxError) else (σ ++ [q], None) |}.

(** A statement event that carries no error. *)
Definition succeeded (e : DDLEvent) : Prop := ∃ q, e = EvExecute q None.

(** Two tables to create, the second of which the cluster will refuse. *)
Definition demoTablesSchema : gmap string string :=
  {[ "t1" := "create table t1 (id int)";
     "t2" := "CREATE TABLE t2 (id int)" ]}.

(** The statements a log executed, in order. *)
Definition executed (log : list DDLEvent) : list string :=
  omap (λ e, match e with EvExecute q _ => Some q | _ => None end) log.

(** *** Tables and a configuration store to run the functions on *)

(** The column carries the primary-key, respectively the auto-increment, bit. *)
Definition pk_flagged (col : ColumnInfo.t) : Prop :=
  Z.testbit (ColumnInfo.Flag col) 1 = true.

Definition auto_incr_flagged (col : ColumnInfo.t) : Prop :=
  Z.testbit (ColumnInfo.Flag col) 9 = true.

(** The name a table's entry is stored under. *)
Definition tableName (tbl : TableInfo.t) : string := CIStr.String_ (TableInfo.Name tbl).

(** The snapshot entry the loader builds for a single table. *)
Definition snapshot_of (tbl : TableInfo.t) : option TidbTableInfo.t :=
  (LoadSchemaInfo_tables [tbl] ∅).1 !! CIStr.String_ (TableInfo.Name tbl).

(** An integer auto-increment primary key that the cluster did not make the
    row handle. *)
Definition noHandleTable : TableInfo.t :=
  {| TableInfo.ID := 51; TableInfo.Name := CIStr_of "t3";
     TableInfo.Columns :=
       [idColumn (Z.lor mysql.NotNullFlag
                    (Z.lor mysql.PriKeyFlag mysql.AutoIncrementFlag))];
     TableInfo.Indices := [{| IndexInfo.ID := 1; IndexInfo.Name := CIStr_of "PRIMARY" |}];
     TableInfo.State := StatePublic;
     TableInfo.PKIsHandle := false |}.

(** A two-column primary key [(id, name)] with [id] auto-increment: both
    columns carry the primary-key flag and there is no integer row handle. *)
Definition compositeKeyTable : TableInfo.t :=
  {| TableInfo.ID := 52; TableInfo.Name := CIStr_of "t5";
     TableInfo.Columns :=
       [ idColumn (Z.lor mysql.NotNullFlag
                     (Z.lor mysql.PriKeyFlag mysql.AutoIncrementFlag));
         {| ColumnInfo.ID := 2; ColumnInfo.Name := CIStr_of "name";
            ColumnInfo.Tp := mysql.TypeVarchar;
            ColumnInfo.Flag := Z.lor mysql.NotNullFlag mysql.PriKeyFlag |} ];
     TableInfo.Indices := [{| IndexInfo.ID := 1; IndexInfo.Name := CIStr_of "PRIMARY" |}];
     TableInfo.State := StatePublic;
     TableInfo.PKIsHandle := false |}.

(** No primary key at all. *)
Definition heapTable : TableInfo.t :=
  {| TableInfo.ID := 53; TableInfo.Name := CIStr_of "t4";
     TableInfo.Columns :=
       [ {| ColumnInfo.ID := 1; ColumnInfo.Name := CIStr_of "v";
            ColumnInfo.Tp := mysql.TypeVarchar; ColumnInfo.Flag := 0 |} ];
     TableInfo.Indices := []; TableInfo.State := StatePublic;
     TableInfo.PKIsHandle := false |}.

Definition demoDB : sql.DB :=
  {| sql.mysql_tidb :=
       {[ "tikv_gc_life_time" := "10m0s"; "tikv_gc_run_interval" := "10m0s" ]} |}.

End restore.

(* ===================================================================== *)
(** ** [context] and [golang.org/x/time/rate] *)
(* ===================================================================== *)

(** A context, seen from a single flow of control over explicit time:
    [doneAt] is the instant its [Done] channel closes ([None]: never),
    [Deadline] its deadline when it has one, [Err] what [ctx.Err()] gives
    once it is done. *)
Module context.
Record Context := {
  doneAt : option Z;
  Deadline : option Z;
  Err : error
}.

Definition Background : Context :=
  {| doneAt := None; Deadline := None; Err := context_Canceled |}.

(** [select { case <-ctx.Done(): ...; default: }] at instant [now]. *)
Definition done_by (ctx : Context) (now : Z) : bool :=
  match doneAt ctx with
  | Some c => c <=? now
  | None => false
  end.
End context.

(** The token bucket of [golang.org/x/time/rate].  The library keeps [limit]
    and [tokens] in [float64]; here [limit] is the whole number of tokens per
    second it was built from and [tokens] is counted exactly, in units of
    one billionth of a token, so that a nanosecond at rate [limit] yields
    [limit] units.  Instants are nanoseconds since Go's zero [time.Time]. *)
Module rate.

Definition InfDuration : Z := 2 ^ 63 - 1.
Definition minDuration : Z := - 2 ^ 63.
Definition unit_ : Z := 1000000000.

(** [t.Sub(u)], saturating as [time.Time.Sub] does. *)
Definition time_Sub (t u : Z) : Z := Z.max minDuration (Z.min InfDuration (t - u)).

Record Limiter := {
  limit : Z;
  burst : Z;
  tokens : Z;
  last : Z;
  lastEvent : Z
}.

Record Reservation := {
  ok : bool;
  r_tokens : Z;
  timeToAct : Z;
  r_limit : Z
}.

Definition NewLimiter (r : Z) (b : Z) : Limiter :=
  {| limit := r; burst := b; tokens := 0; last := 0; lastEvent := 0 |}.

Definition tokensFromDuration (limit : Z) (d : Z) : Z := d * limit.

Definition durationFromTokens (limit : Z) (tokens : Z) : Z :=
  if limit <=? 0 then InfDuration else Z.quot tokens limit.

Definition advance (lim : Limiter) (t : Z) : Z * Z :=
  let last := if t <? last lim then t else last lim in
  let elapsed := time_Sub t last in
  let delta := tokensFromDuration (limit lim) elapsed in
  let tokens := tokens lim + delta in
  let tokens := if burst lim * unit_ <? tokens then burst lim * unit_ else tokens in
  (t, tokens).

Definition reserveN (lim : Limiter) (t : Z) (n : Z) (maxFutureReserve : Z)
  : Reservation * Limiter :=
  if limit lim =? 0 then
    if n <=? burst lim then
      ({| ok := true; r_tokens := burst lim - n; timeToAct := t; r_limit := 0 |},
       {| limit := limit lim; burst := burst lim - n; tokens := tokens lim;
          last := last lim; lastEvent := lastEvent lim |})
    else
      ({| ok := false; r_tokens := burst lim; timeToAct := t; r_limit := 0 |}, lim)
  else
    let '(t, tokens) := advance lim t in
    let tokens := tokens - n * unit_ in
    let waitDuration :=
      if tokens <? 0 then durationFromTokens (limit lim) (- tokens) else 0 in
    let ok := (n <=? burst lim) && (waitDuration <=? maxFutureReserve) in
    if ok then
      ({| ok := true; r_tokens := n; timeToAct := t + waitDuration;
          r_limit := limit lim |},
       {| limit := limit lim; burst := burst lim; tokens := tokens;
          last := t; lastEvent := t + waitDuration |})
    else
      ({| ok := false; r_tokens := 0; timeToAct := 0; r_limit := limit lim |}, lim).

Definition AllowN (lim : Limiter) (t : Z) (n : Z) : bool * Limiter :=
  let '(r, lim) := reserveN lim t n 0 in (ok r, lim).

(** [r.DelayFrom(t)] *)
Definition DelayFrom (r : Reservation) (t : Z) : Z :=
  if ok r then
    let delay := time_Sub (timeToAct r) t in
    if delay <? 0 then 0 else delay
  else InfDuration.

(** [r.CancelAt(t)]: gives back the tokens of a reservation not yet acted on. *)
Definition CancelAt (r : Reservation) (lim : Limiter) (t : Z) : Limiter :=
  if negb (ok r) then lim
  else if (r_tokens r =? 0) || (timeToAct r <? t) then lim
  else
    let restoreTokens :=
      r_tokens r * unit_
      - tokensFromDuration (r_limit r) (time_Sub (lastEvent lim) (timeToAct r)) in
    if restoreTokens <=? 0 then lim
    else
      let '(t, tokens) := advance lim t in
      let tokens := tokens + restoreTokens in
      let tokens := if burst lim * unit_ <? tokens then burst lim * unit_ else tokens in
      let prevEvent := timeToAct r + durationFromTokens (r_limit r) (- (r_tokens r * unit_)) in
      {| limit := limit lim; burst := burst lim; tokens := tokens; last := t;
         lastEvent :=
           if (timeToAct r =? lastEvent lim) && negb (prevEvent <? t)
           then prevEvent else lastEvent lim |}.

(** [lim.WaitN(ctx, n)] entered at instant [now]: the error, the limiter
    afterwards and the instant at which the call returns. *)
Definition WaitN (lim : Limiter) (ctx : context.Context) (n : Z) (now : Z)
  : option error * Limiter * Z :=
  if burst lim <? n then (Some (rate_ExceedsBurst n (burst lim)), lim, now)
  else if context.done_by ctx now then (Some (context.Err ctx), lim, now)
  else
    let waitLimit :=
      match context.Deadline ctx with
      | Some deadline => time_Sub deadline now
      | None => InfDuration
      end in
    let '(r, lim) := reserveN lim now n waitLimit in
    if negb (ok r) then (Some (rate_WouldExceedDeadline n), lim, now)
    else
      let delay := DelayFrom r now in
      if delay =? 0 then (None, lim, now)
      else
        match context.doneAt ctx with
        | Some c =>
          if c <? now + delay
          then (Some (context.Err ctx), CancelAt r lim c, c)
          else (None, lim, now + delay)
        | None => (None, lim, now + delay)
        end.

End rate.

(* ===================================================================== *)
(** ** package storage: the rate-limited decorator *)
(* ===================================================================== *)

Module storage.

Inductive result (A : Type) :=
| Ok (a : A)
| Failed (err : error).
Arguments Ok {A} a.
Arguments Failed {A} err.

(** The two interfaces.  A method takes the receiver and the instant at which
    it is entered, and gives its results, the receiver afterwards and the
    instant at which it returns. *)
Class ExternalFileWriter (W : Type) := {
  Write : W -> context.Context -> list Byte.byte -> Z -> (Z * option error) * W * Z;
  Close : W -> context.Context -> Z -> option error * W * Z
}.

Class ExternalStorage (S W : Type) := {
  Create : S -> context.Context -> string -> Z -> result W * S * Z
}.

Definition burstLimit : Z := 1000 * 1000 * 1000.

Record withRatelimit (S : Type) := {
  inner_ExternalStorage : S;
  Ratelimit : Z
}.
Arguments inner_ExternalStorage {S} _.
Arguments Ratelimit {S} _.

Record withRateLimitWriter (W : Type) := {
  inner_ExternalFileWriter : W;
  limiter : option rate.Limiter
}.
Arguments inner_ExternalFileWriter {W} _.
Arguments limiter {W} _.

(** The interface value [WithRatelimit] returns holds either the inner
    storage itself or a [*withRatelimit]. *)
Definition WithRatelimit {S : Type} (inner : S) (ratelimit : Z)
  : S + withRatelimit S :=
  if ratelimit =? 0 then inl inner
  else inr {| inner_ExternalStorage := inner; Ratelimit := ratelimit |}.

Section Decorator.
Context {S W : Type} `{!ExternalFileWriter W} `{!ExternalStorage S W}.

Definition withRatelimit_Create (r : withRatelimit S) (ctx : context.Context)
    (name : string) (now : Z)
  : result (withRateLimitWriter W) * withRatelimit S * Z :=
  let '(res, s, now) := Create (inner_ExternalStorage r) ctx name now in
  let r := {| inner_ExternalStorage := s; Ratelimit := Ratelimit r |} in
  match res with
  | Failed err => (Failed err, r, now)
  | Ok inner =>
    let w := {| inner_ExternalFileWriter := inner; limiter := None |} in
    let w :=
      if 0 <? Ratelimit r then
        let lim := rate.NewLimiter (Ratelimit r) burstLimit in
        let '(_, lim) := rate.AllowN lim now burstLimit in
        {| inner_ExternalFileWriter := inner; limiter := Some lim |}
      else w in
    (Ok w, r, now)
  end.

Definition withRateLimitWriter_Write (rw : withRateLimitWriter W)
    (ctx : context.Context) (p : list Byte.byte) (now : Z)
  : (Z * option error) * withRateLimitWriter W * Z :=
  match limiter rw with
  | None =>
    let '(res, w, now) := Write (inner_ExternalFileWriter rw) ctx p now in
    (res, {| inner_ExternalFileWriter := w; limiter := None |}, now)
  | Some lim =>
    let '((n, err), w, now) := Write (inner_ExternalFileWriter rw) ctx p now in
    match err with
    | Some err =>
      ((n, Some err), {| inner_ExternalFileWriter := w; limiter := Some lim |}, now)
    | None =>
      let '(err, lim, now) := rate.WaitN lim ctx n now in
      match err with
      | Some err =>
        ((n, Some err), {| inner_ExternalFileWriter := w; limiter := Some lim |}, now)
      | None =>
        ((n, None), {| inner_ExternalFileWriter := w; limiter := Some lim |}, now)
      end
    end
  end.

(** [Close] is promoted from the embedded writer. *)
Definition withRateLimitWriter_Close (rw : withRateLimitWriter W)
    (ctx : context.Context) (now : Z)
  : option error * withRateLimitWriter W * Z :=
  let '(err, w, now) := Close (inner_ExternalFileWriter rw) ctx now in
  (err, {| inner_ExternalFileWriter := w; limiter := limiter rw |}, now).

#[export] Instance withRateLimitWriter_ExternalFileWriter
  : ExternalFileWriter (withRateLimitWriter W) :=
  {| Write := withRateLimitWriter_Write; Close := withRateLimitWriter_Close |}.

#[export] Instance withRatelimit_ExternalStorage
  : ExternalStorage (withRatelimit S) (withRateLimitWriter W) :=
  {| Create := withRatelimit_Create |}.

(** Calls through the interface value dispatch on what it holds. *)
Definition iface_Write (w : W + withRateLimitWriter W) (ctx : context.Context)
    (p : list Byte.byte) (now : Z)
  : (Z * option error) * (W + withRateLimitWriter W) * Z :=
  match w with
  | inl w => let '(res, w, now) := Write w ctx p now in (res, inl w, now)
  | inr rw => let '(res, rw, now) := Write rw ctx p now in (res, inr rw, now)
  end.

Definition iface_Close (w : W + withRateLimitWriter W) (ctx : context.Context)
    (now : Z) : option error * (W + withRateLimitWriter W) * Z :=
  match w with
  | inl w => let '(err, w, now) := Close w ctx now in (err, inl w, now)
  | inr rw => let '(err, rw, now) := Close rw ctx now in (err, inr rw, now)
  end.

Definition iface_Create (s : S + withRatelimit S) (ctx : context.Context)
    (name : string) (now : Z)
  : result (W + withRateLimitWriter W) * (S + withRatelimit S) * Z :=
  match s with
  | inl s =>
    let '(res, s, now) := Create s ctx name now in
    (match res with Ok w => Ok (inl w) | Failed err => Failed err end, inl s, now)
  | inr r =>
    let '(res, r, now) := Create r ctx name now in
    (match res with Ok rw => Ok (inr rw) | Failed err => Failed err end, inr r, now)
  end.

End Decorator.

(** *** An in-memory sink, to run the decorator on

    A blob holds at most [room] more bytes; a write that does not fit keeps
    the part that fits and reports an error.  Every call takes [latency]. *)
Record memWriter := {
  blob : list Byte.byte;
  room : Z;
  latency : Z
}.

Definition memWriter_Write (w : memWriter) (ctx : context.Context)
    (p : list Byte.byte) (now : Z) : (Z * option error) * memWriter * Z :=
  let n := Z.of_nat (length p) in
  if n <=? room w then
    ((n, None),
     {| blob := blob w ++ p; room := room w - n; latency := latency w |},
     now + latency w)
  else
    ((room w, Some (io_Error "short write")),
     {| blob := blob w ++ take (Z.to_nat (room w)) p; room := 0;
        latency := latency w |},
     now + latency w).

#[export] Instance memWriter_ExternalFileWriter : ExternalFileWriter memWriter :=
  {| Write := memWriter_Write;
     Close := fun w ctx now => (None, w, now + latency w) |}.

Record memStorage := {
  blobs : list string;
  capacity : Z;
  delay : Z
}.

#[export] Instance memStorage_ExternalStorage : ExternalStorage memStorage memWriter :=
  {| Create := fun s ctx name now =>
       (Ok {| blob := []; room := capacity s; latency := delay s |},
        {| blobs := name :: blobs s; capacity := capacity s; delay := delay s |},
        now + delay s) |}.

(** *** Vocabulary and values for the statements *)

(** The wait that [WaitN lim ctx n] starts at [now] is cut short at [c]: the
    request fits the burst, the context is not yet done at [now], the
    reservation is granted within the context's deadline, and the context is
    done at [c], before the delay has elapsed. *)
Definition wait_canceled_at (lim : rate.Limiter) (ctx : context.Context)
    (n now c : Z) : Prop :=
  n ≤ rate.burst lim
  ∧ context.doneAt ctx = Some c
  ∧ now < c
  ∧ let waitLimit :=
      match context.Deadline ctx with
      | Some deadline => rate.time_Sub deadline now
      | None => rate.InfDuration
      end in
    let r := (rate.reserveN lim now n waitLimit).1 in
    rate.ok r = true ∧ c < now + rate.DelayFrom r now.

Definition time_Millisecond : Z := 1000000.

(** An instant of the year 2026, in nanoseconds since Go's zero time. *)
Definition anInstant : Z := 63900000000 * rate.unit_.

Definition demoStorage : memStorage :=
  {| blobs := []; capacity := 4096; delay := 2 * time_Millisecond |}.

Definition cancelAt (c : Z) : context.Context :=
  {| context.doneAt := Some c; context.Deadline := None;
     context.Err := context_Canceled |}.

Definition payload (n : nat) : list Byte.byte := repeat Byte.x2a n.

(** The writer [Create] hands out at [anInstant] under a ceiling of 1000
    bytes per second, once the inner creation has taken its 2 ms. *)
Definition demoWriter : withRateLimitWriter memWriter :=
  {| inner_ExternalFileWriter :=
       {| blob := []; room := 4096; latency := 2 * time_Millisecond |};
     limiter :=
       Some {| rate.limit := 1000; rate.burst := burstLimit; rate.tokens := 0;
               rate.last := anInstant + 2 * time_Millisecond;
               rate.lastEvent := anInstant + 2 * time_Millisecond |} |}.

(** A writer whose limiter has a burst of 100, to exceed it with a small
    payload. *)
Definition tightWriter : withRateLimitWriter memWriter :=
  {| inner_ExternalFileWriter :=
       {| blob := []; room := 4096; latency := 2 * time_Millisecond |};
     limiter :=
       Some {| rate.limit := 1000; rate.burst := 100; rate.tokens := 0;
               rate.last := anInstant; rate.lastEvent := anInstant |} |}.

(** *** Vocabulary for the pacing of a writer *)

(** The tokens the limiter would hold at instant [t], in billionths. *)
Definition avail (lim : rate.Limiter) (t : Z) : Z := (rate.advance lim t).2.

(** The bytes a write is charged for: its count when it returned no error. *)
Definition credited (n : Z) (err : option error) : Z :=
  match err with
  | None => n
  | Some _ => 0
  end.

(** At instant [t], a limiter of rate [C] created at [t0] has let [B] bytes
    through without error: what it holds and what it let through do not
    exceed what the rate yields since [t0], and it owes less than one
    nanosecond of tokens. *)
Definition paced (C t0 : Z) (lim : rate.Limiter) (t B : Z) : Prop :=
  rate.limit lim = C
  ∧ rate.burst lim = burstLimit
  ∧ rate.last lim ≤ t
  ∧ - C < avail lim t
  ∧ B * rate.unit_ + avail lim t ≤ (t - t0) * C.

(** A history of a writer: from [rw0] at [t0], time passes and writes are
    made, each on an inner sink that does not go back in time and accepts a
    non-negative count; [B] sums the counts of the writes that returned no
    error. *)
Inductive writes_from {W : Type} `{!ExternalFileWriter W}
    (rw0 : withRateLimitWriter W) (t0 : Z)
  : withRateLimitWriter W → Z → Z → Prop :=
| writes_none : writes_from rw0 t0 rw0 t0 0
| writes_idle rw t B t' :
    writes_from rw0 t0 rw t B → t ≤ t' → writes_from rw0 t0 rw t' B
| writes_step rw t B ctx p n err rw' t' :
    writes_from rw0 t0 rw t B →
    t ≤ (Write (inner_ExternalFileWriter rw) ctx p t).2 →
    0 ≤ (Write (inner_ExternalFileWriter rw) ctx p t).1.1.1 →
    withRateLimitWriter_Write rw ctx p t = ((n, err), rw', t') →
    writes_from rw0 t0 rw' t' (B + credited n err).

End storage.

(* ===================================================================== *)
(** ** Metadata snapshots *)
(* ===================================================================== *)

Import model restore.

(** Names the result of the recursive call of the inner loop and instantiates
    the induction hypothesis at its accumulator. *)
Ltac tables_step rest IH :=
  match goal with
  | |- context [LoadSchemaInfo_tables rest ?T] =>
      specialize (IH T); destruct (LoadSchemaInfo_tables rest T) as [? ?]
  end.

Section LoadSchemaInfo_facts.

Lemma LoadSchemaInfo_tables_log tbls (Tables : gmap string TidbTableInfo.t) :
  schedule (LoadSchemaInfo_tables tbls Tables).2 = [].
Proof.
  revert Tables. induction tbls as [|tbl rest IH]; intros Tables; [done|].
  cbn [LoadSchemaInfo_tables].
  tables_step rest IH.
  cbn in *. unfold schedule in *. rewrite List.filter_app, IH.
  by destruct (bool_decide _).
Qed.

(** Every entry of the map built by the inner loop is either an entry it
    started from or the snapshot of one of the tables, stored under its name. *)
Lemma LoadSchemaInfo_tables_entries tbls (Tables : gmap string TidbTableInfo.t) name ti :
  (LoadSchemaInfo_tables tbls Tables).1 !! name = Some ti →
  Tables !! name = Some ti
  ∨ ∃ tbl, tbl ∈ tbls ∧ name = TidbTableInfo.Name ti ∧ reflects ti tbl.
Proof.
  revert Tables. induction tbls as [|tbl rest IH]; intros Tables; [by left|].
  cbn [LoadSchemaInfo_tables].
  tables_step rest IH.
  cbn [fst] in *. intros H. destruct (IH H) as [Hins|(tbl' & Hin & Hn & Hr)].
  - destruct (decide (CIStr.String_ (TableInfo.Name tbl) = name)) as [<-|Hne].
    + rewrite lookup_insert_eq in Hins. injection Hins as <-.
      right. exists tbl. split; [left|]. split; [done|].
      unfold reflects; cbn. rewrite bool_decide_eq_true. tauto.
    + rewrite lookup_insert_ne in Hins by done. by left.
  - right. exists tbl'. split; [by right|done].
Qed.

(** Every table gets an entry under its name, and entries are never removed. *)
Lemma LoadSchemaInfo_tables_dom tbls (Tables : gmap string TidbTableInfo.t) name :
  (is_Some (Tables !! name)
   ∨ ∃ tbl, tbl ∈ tbls ∧ CIStr.String_ (TableInfo.Name tbl) = name) →
  is_Some ((LoadSchemaInfo_tables tbls Tables).1 !! name).
Proof.
  revert Tables. induction tbls as [|tbl rest IH]; intros Tables.
  - intros [H|(tbl & Hin & _)]; [done|]. by apply elem_of_nil in Hin.
  - cbn [LoadSchemaInfo_tables].
    tables_step rest IH.
    cbn [fst] in *. intros H. apply IH.
    destruct (decide (CIStr.String_ (TableInfo.Name tbl) = name)) as [<-|Hne].
    + left. rewrite lookup_insert_eq. eauto.
    + destruct H as [H|(tbl' & Hin & Hn)].
      * left. by rewrite lookup_insert_ne.
      * apply elem_of_cons in Hin as [->|Hin]; [done|]. right. eauto.
Qed.

(** A database list without the requested name leaves [dbInfo] as it was. *)
Lemma LoadSchemaInfo_schemas_no_match schemas database dbInfo :
  (∀ db, db ∈ schemas → CIStr.String_ (DBInfo.Name db) ≠ database) →
  LoadSchemaInfo_schemas schemas database dbInfo = (dbInfo, []).
Proof.
  induction schemas as [|db rest IH]; intros Hno; [done|].
  cbn [LoadSchemaInfo_schemas].
  rewrite bool_decide_eq_true_2 by (apply Hno; left).
  apply IH. intros d Hd. apply Hno. by right.
Qed.

(** The last database carrying the requested name decides the result. *)
Lemma LoadSchemaInfo_schemas_match pre db post database dbInfo :
  CIStr.String_ (DBInfo.Name db) = database →
  (∀ d, d ∈ post → CIStr.String_ (DBInfo.Name d) ≠ database) →
  (LoadSchemaInfo_schemas (pre ++ db :: post) database dbInfo).1 =
  Some {| TidbDBInfo.ID := DBInfo.ID db;
          TidbDBInfo.Name := CIStr.String_ (DBInfo.Name db);
          TidbDBInfo.Tables := (LoadSchemaInfo_tables (DBInfo.Tables db) ∅).1;
          TidbDBInfo.Available := bool_decide (DBInfo.State db = StatePublic) |}.
Proof.
  intros Hname Hpost. revert dbInfo.
  induction pre as [|d pre IH]; intros dbInfo.
  - cbn [app LoadSchemaInfo_schemas].
    rewrite bool_decide_eq_false_2 by (intros Hne; by apply Hne).
    destruct (LoadSchemaInfo_tables (DBInfo.Tables db) ∅) as [T log].
    rewrite LoadSchemaInfo_schemas_no_match by done. done.
  - cbn [app LoadSchemaInfo_schemas].
    destruct (bool_decide (CIStr.String_ (DBInfo.Name d) ≠ database)); [apply IH|].
    destruct (LoadSchemaInfo_tables (DBInfo.Tables d) ∅) as [T log].
    specialize (IH (Some {| TidbDBInfo.ID := DBInfo.ID d;
                   TidbDBInfo.Name := CIStr.String_ (DBInfo.Name d);
                   TidbDBInfo.Tables := T;
                   TidbDBInfo.Available := bool_decide (DBInfo.State d = StatePublic) |})).
    destruct (LoadSchemaInfo_schemas (pre ++ db :: post) database _) as [r log'].
    exact IH.
Qed.

Lemma LoadSchemaInfo_schemas_log schemas database dbInfo :
  schedule (LoadSchemaInfo_schemas schemas database dbInfo).2 = [].
Proof.
  revert dbInfo. induction schemas as [|db rest IH]; intros dbInfo; [done|].
  cbn [LoadSchemaInfo_schemas].
  destruct (bool_decide (CIStr.String_ (DBInfo.Name db) ≠ database)); [apply IH|].
  pose proof (LoadSchemaInfo_tables_log (DBInfo.Tables db) ∅) as Ht.
  destruct (LoadSchemaInfo_tables (DBInfo.Tables db) ∅) as [T log].
  match goal with
  | |- context [LoadSchemaInfo_schemas rest database ?d] =>
      specialize (IH d); destruct (LoadSchemaInfo_schemas rest database d) as [r log']
  end.
  cbn in *. unfold schedule in *. by rewrite List.filter_app, Ht, IH.
Qed.

(** A load is one metadata read: it answers with the snapshot of the moment
    and moves the cluster one read further. *)
Lemma LoadSchemaInfo_step timgr database served :
  ∃ log, LoadSchemaInfo timgr database served
         = (snapshotAt timgr database served, S served, log)
         ∧ schedule log = [EvGetInfoSchema].
Proof.
  unfold snapshotAt, LoadSchemaInfo, GetInfoSchema.
  destruct (infoSchemaAt timgr served) as [schemas|]; [|by eexists].
  pose proof (LoadSchemaInfo_schemas_log schemas database None) as Hl.
  destruct (LoadSchemaInfo_schemas schemas database None) as [r log].
  eexists; split; [done|]. cbn in *. unfold schedule in *. cbn. by rewrite Hl.
Qed.

End LoadSchemaInfo_facts.

(** C9.  When the metadata read succeeds: if no enumerated database carries
    the requested name, [LoadSchemaInfo] returns nil (there is no error
    result); if one does, it returns the snapshot of the last such database,
    whose availability flag says whether that database is public, and whose
    table entries are exactly the tables of that database, each entry's
    availability flag saying whether the table it was built from is public. *)
Theorem LoadSchemaInfo_nil_or_snapshot timgr database served schemas :
  infoSchemaAt timgr served = Some schemas →
  ((∀ db, db ∈ schemas → CIStr.String_ (DBInfo.Name db) ≠ database) →
   (LoadSchemaInfo timgr database served).1.1 = None)
  ∧ (∀ pre db post,
       schemas = pre ++ db :: post →
       CIStr.String_ (DBInfo.Name db) = database →
       (∀ d, d ∈ post → CIStr.String_ (DBInfo.Name d) ≠ database) →
       ∃ dbInfo,
         (LoadSchemaInfo timgr database served).1.1 = Some dbInfo
         ∧ TidbDBInfo.ID dbInfo = DBInfo.ID db
         ∧ TidbDBInfo.Name dbInfo = database
         ∧ (TidbDBInfo.Available dbInfo = true ↔ DBInfo.State db = StatePublic)
         ∧ (∀ tbl, tbl ∈ DBInfo.Tables db →
              is_Some (TidbDBInfo.Tables dbInfo !! CIStr.String_ (TableInfo.Name tbl)))
         ∧ (∀ name ti, TidbDBInfo.Tables dbInfo !! name = Some ti →
              name = TidbTableInfo.Name ti
              ∧ ∃ tbl, tbl ∈ DBInfo.Tables db ∧ reflects ti tbl)).
Proof.
  intros Hread. unfold LoadSchemaInfo, GetInfoSchema. rewrite Hread. split.
  - intros Hno. by rewrite LoadSchemaInfo_schemas_no_match.
  - intros pre db post -> Hname Hpost.
    pose proof (LoadSchemaInfo_schemas_match pre db post database None Hname Hpost) as Hm.
    destruct (LoadSchemaInfo_schemas (pre ++ db :: post) database None) as [r log].
    cbn in Hm. subst r. eexists. split; [done|]. cbn.
    split; [done|]. split; [done|]. split; [by rewrite bool_decide_eq_true|].
    split.
    + intros tbl Hin. apply LoadSchemaInfo_tables_dom. right. eauto.
    + intros name ti Hl.
      apply LoadSchemaInfo_tables_entries in Hl as [Hl|(tbl & Hin & Hn & Hr)].
      * by rewrite lookup_empty in Hl.
      * eauto.
Qed.

Lemma LoadSchemaInfo_nil_or_snapshot_witness :
  (LoadSchemaInfo (readyAfter 0) "not_created_yet" 0).1.1 = None
  ∧ ∃ dbInfo ti,
      (LoadSchemaInfo (readyAfter 1) "test" 0).1.1 = Some dbInfo
      ∧ TidbDBInfo.Available dbInfo = true
      ∧ TidbDBInfo.Tables dbInfo !! "t2" = Some ti
      ∧ TidbTableInfo.Available ti = false.
Proof.
  split.
  - apply (proj1 (LoadSchemaInfo_nil_or_snapshot (readyAfter 0) "not_created_yet" 0
                    (demoSchemas StatePublic) eq_refl)).
    intros db Hin. repeat (apply elem_of_cons in Hin as [->|Hin]; [done|]).
    by apply elem_of_nil in Hin.
  - destruct (proj2 (LoadSchemaInfo_nil_or_snapshot (readyAfter 1) "test" 0
                       (demoSchemas StateWriteOnly) eq_refl)
                [ {| DBInfo.ID := 1; DBInfo.Name := CIStr_of "mysql";
                     DBInfo.Tables := []; DBInfo.State := StatePublic |} ]
                {| DBInfo.ID := 2; DBInfo.Name := CIStr_of "test";
                   DBInfo.Tables :=
                     [demoTable 45 "t1" StatePublic; demoTable 47 "t2" StateWriteOnly];
                   DBInfo.State := StatePublic |}
                [] eq_refl eq_refl)
      as (dbInfo & Hload & _ & _ & Havail & Hdom & Hentries).
    { intros d Hd. by apply elem_of_nil in Hd. }
    destruct (Hdom (demoTable 47 "t2" StateWriteOnly)) as [ti Hti].
    { right. left. }
    exists dbInfo, ti. split; [done|]. split; [by apply Havail|]. split; [done|].
    destruct (Hentries _ _ Hti) as (_ & tbl & Hin & Hr).
    destruct Hr as (_ & _ & Hname & _ & _ & Hav).
    apply not_true_is_false. intros Ht. apply Hav in Ht.
    destruct (Hentries _ _ Hti) as (Hn & _).
    rewrite <- Hn in Hname.
    apply elem_of_cons in Hin as [->|Hin]; [discriminate Hname|].
    apply list_elem_of_singleton in Hin as ->. discriminate Ht.
Defined.

(* ===================================================================== *)
(** ** The readiness loop *)
(* ===================================================================== *)

Section SyncSchema_facts.

Variable timgr : TiDBManager.
Variable database : string.

(** The inner range loop leaves [done] set exactly when every table of the
    snapshot is available, whatever the order the map yields them in. *)
Lemma SyncSchema_range_Forall entries :
  SyncSchema_range entries true = true
  ↔ Forall (λ e, TidbTableInfo.Available e.2 = true) entries.
Proof.
  induction entries as [|[name ti] rest IH]; cbn.
  - split; [constructor|done].
  - destruct (TidbTableInfo.Available ti) eqn:E; cbn.
    + rewrite IH. split; [by constructor|by inversion 1].
    + split; [done|]. inversion 1; cbn in *; congruence.
Qed.

Lemma SyncSchema_range_AllAvailable dbInfo :
  SyncSchema_range (map_to_list (TidbDBInfo.Tables dbInfo)) true = true
  ↔ AllAvailable dbInfo.
Proof.
  rewrite SyncSchema_range_Forall. unfold AllAvailable.
  rewrite map_Forall_to_list. apply Forall_proper; [|done].
  by intros [name ti].
Qed.

Lemma schedule_app l1 l2 : schedule (l1 ++ l2) = schedule l1 ++ schedule l2.
Proof. apply List.filter_app. Qed.

Lemma polls_schedule log : polls (schedule log) = polls log.
Proof.
  unfold polls, schedule. induction log as [|e log IH]; [done|].
  destruct e; cbn in *; by rewrite ?IH.
Qed.

Lemma sleeps_schedule log : sleeps (schedule log) = sleeps log.
Proof.
  unfold sleeps, schedule. induction log as [|e log IH]; [done|].
  destruct e; cbn in *; by rewrite ?IH.
Qed.

Lemma polls_attempts k l :
  polls (concat (repeat failed_attempt k) ++ l) = (k + polls l)%nat.
Proof.
  induction k as [|k IH]; [done|].
  change (polls (concat (repeat failed_attempt (S k)) ++ l))
    with (S (polls (concat (repeat failed_attempt k) ++ l))).
  by rewrite IH.
Qed.

Lemma sleeps_attempts k l :
  sleeps (concat (repeat failed_attempt k) ++ l)
  = repeat (time_Second * 5) k ++ sleeps l.
Proof.
  induction k as [|k IH]; [done|].
  change (sleeps (concat (repeat failed_attempt (S k)) ++ l))
    with (time_Second * 5 :: sleeps (concat (repeat failed_attempt k) ++ l)).
  by rewrite IH.
Qed.

(** One turn of the loop on a snapshot with an unavailable table: warn, sleep
    five seconds, go on with one attempt fewer. *)
Lemma SyncSchema_loop_not_ready remaining served dbInfo :
  snapshotAt timgr database served = Some dbInfo →
  ¬ AllAvailable dbInfo →
  ∃ log, schedule log = failed_attempt ∧
    SyncSchema_loop timgr database (S remaining) served =
    match SyncSchema_loop timgr database remaining (S served) with
    | Return r served' log' => Return r served' (log ++ log')
    | Panic served' log' => Panic served' (log ++ log')
    end.
Proof.
  intros Hsnap Hnot. cbn [SyncSchema_loop].
  destruct (LoadSchemaInfo_step timgr database served) as (log & -> & Hlog).
  rewrite Hsnap.
  destruct (SyncSchema_range _ true) eqn:E.
  { by apply SyncSchema_range_AllAvailable in E. }
  cbn [negb]. exists (log ++ [EvWarnNotReady; EvSleep (time_Second * 5)]).
  split; [by rewrite schedule_app, Hlog|].
  destruct (SyncSchema_loop timgr database remaining (S served));
    by rewrite <- app_assoc.
Qed.

(** One turn of the loop on a fully available snapshot: break. *)
Lemma SyncSchema_loop_ready remaining served dbInfo :
  snapshotAt timgr database served = Some dbInfo →
  AllAvailable dbInfo →
  ∃ log, schedule log = [EvGetInfoSchema] ∧
    SyncSchema_loop timgr database (S remaining) served = Return tt (S served) log.
Proof.
  intros Hsnap Hall. cbn [SyncSchema_loop].
  destruct (LoadSchemaInfo_step timgr database served) as (log & -> & Hlog).
  rewrite Hsnap.
  apply SyncSchema_range_AllAvailable in Hall as ->. by exists log.
Qed.

(** With no attempt succeeding, the loop runs its whole budget. *)
Lemma SyncSchema_loop_exhausted remaining served :
  (∀ j, (j < remaining)%nat → ∃ dbInfo,
      snapshotAt timgr database (served + j) = Some dbInfo ∧ ¬ AllAvailable dbInfo) →
  ∃ log,
    SyncSchema_loop timgr database remaining served
    = Return tt (served + remaining) log
    ∧ schedule log = concat (repeat failed_attempt remaining).
Proof.
  revert served. induction remaining as [|remaining IH]; intros served Hnot.
  - exists []. by rewrite Nat.add_0_r.
  - destruct (Hnot 0%nat ltac:(lia)) as (dbInfo & Hs & Hn).
    rewrite Nat.add_0_r in Hs.
    destruct (SyncSchema_loop_not_ready remaining served dbInfo Hs Hn)
      as (log & Hlog & ->).
    destruct (IH (S served)) as (log' & -> & Hlog').
    { intros j Hj. destruct (Hnot (S j) ltac:(lia)) as (d & Hd & Hd').
      exists d. by rewrite Nat.add_succ_comm. }
    exists (log ++ log'). split; [f_equal; lia|].
    by rewrite schedule_app, Hlog, Hlog'.
Qed.

(** With [k] failing attempts inside the budget, the loop breaks at attempt
    [k+1]. *)
Lemma SyncSchema_loop_breaks k remaining served :
  (k < remaining)%nat →
  ready_after timgr database served k →
  ∃ log,
    SyncSchema_loop timgr database remaining served
    = Return tt (served + k + 1) log
    ∧ schedule log = concat (repeat failed_attempt k) ++ [EvGetInfoSchema].
Proof.
  revert remaining served.
  induction k as [|k IH]; intros remaining served Hk [Hbefore Hafter].
  - destruct remaining as [|remaining]; [lia|].
    destruct (Hafter 0%nat ltac:(lia)) as (dbInfo & Hs & Ha).
    rewrite Nat.add_0_r in Hs.
    destruct (SyncSchema_loop_ready remaining served dbInfo Hs Ha) as (log & Hlog & ->).
    exists log. split; [f_equal; lia|done].
  - destruct remaining as [|remaining]; [lia|].
    destruct (Hbefore 0%nat ltac:(lia)) as (dbInfo & Hs & Hn).
    rewrite Nat.add_0_r in Hs.
    destruct (SyncSchema_loop_not_ready remaining served dbInfo Hs Hn)
      as (log & Hlog & ->).
    destruct (IH remaining (S served)) as (log' & -> & Hlog'); [lia| |].
    { split; intros j Hj.
      - destruct (Hbefore (S j) ltac:(lia)) as (d & Hd & Hd').
        exists d. by rewrite Nat.add_succ_comm.
      - destruct (Hafter (S j) ltac:(lia)) as (d & Hd & Hd').
        exists d. by rewrite Nat.add_succ_comm. }
    exists (log ++ log'). split; [f_equal; lia|].
    by rewrite schedule_app, Hlog, Hlog'.
Qed.

(** A nil snapshot at the head of the loop is dereferenced. *)
Lemma SyncSchema_loop_nil remaining served :
  snapshotAt timgr database served = None →
  ∃ log, SyncSchema_loop timgr database (S remaining) served = Panic (S served) log.
Proof.
  intros Hnil. cbn [SyncSchema_loop].
  destruct (LoadSchemaInfo_step timgr database served) as (log & -> & Hlog).
  rewrite Hnil. by exists log.
Qed.

End SyncSchema_facts.

(** *** The demonstration clusters *)

Lemma demo_snapshot state :
  ∃ dbInfo,
    (LoadSchemaInfo_schemas (demoSchemas state) "test" None).1 = Some dbInfo
    ∧ (AllAvailable dbInfo ↔ state = StatePublic).
Proof.
  eexists. split; [reflexivity|].
  unfold AllAvailable. rewrite map_Forall_to_list.
  destruct state;
    (split;
     [ intros H; vm_compute in H; try reflexivity;
       repeat match goal with
              | H : Forall _ (_ :: _) |- _ => inversion_clear H
              end; discriminate
     | intros H; try discriminate H; vm_compute; repeat constructor ]).
Qed.

Lemma demo_snapshot_ready :
  ∃ dbInfo,
    (LoadSchemaInfo_schemas (demoSchemas StatePublic) "test" None).1 = Some dbInfo
    ∧ AllAvailable dbInfo.
Proof.
  destruct (demo_snapshot StatePublic) as (dbInfo & Hd & Ha).
  exists dbInfo. split; [done|]. by apply Ha.
Qed.

Lemma demo_snapshot_not_ready state :
  state ≠ StatePublic →
  ∃ dbInfo,
    (LoadSchemaInfo_schemas (demoSchemas state) "test" None).1 = Some dbInfo
    ∧ ¬ AllAvailable dbInfo.
Proof.
  intros Hs. destruct (demo_snapshot state) as (dbInfo & Hd & Ha).
  exists dbInfo. split; [done|]. by rewrite Ha.
Qed.

Lemma snapshotAt_readyAfter k n :
  snapshotAt (readyAfter k) "test" n =
  (LoadSchemaInfo_schemas
     (demoSchemas (if Nat.ltb n k then StateWriteOnly else StatePublic)) "test" None).1.
Proof.
  unfold snapshotAt, LoadSchemaInfo, GetInfoSchema, readyAfter. cbn [infoSchemaAt].
  by destruct (LoadSchemaInfo_schemas _ "test" None).
Qed.

Lemma readyAfter_ready_after k : ready_after (readyAfter k) "test" 0 k.
Proof.
  split; intros j Hj; rewrite snapshotAt_readyAfter; cbn [Nat.add].
  - destruct (Nat.ltb_spec j k); [|lia]. by apply demo_snapshot_not_ready.
  - destruct (Nat.ltb_spec j k); [lia|]. apply demo_snapshot_ready.
Qed.

Lemma neverReady_never_ready : never_ready neverReady "test" 0.
Proof.
  intros j. unfold snapshotAt, LoadSchemaInfo, GetInfoSchema, neverReady.
  cbn [infoSchemaAt].
  destruct (demo_snapshot_not_ready StateWriteOnly) as (dbInfo & Hd & Hn); [done|].
  exists dbInfo. split; [|done]. by destruct (LoadSchemaInfo_schemas _ "test" None).
Qed.

Lemma stillPropagating_never_ready : never_ready stillPropagating "test" 0.
Proof.
  intros j. unfold snapshotAt, LoadSchemaInfo, GetInfoSchema, stillPropagating.
  cbn [infoSchemaAt Nat.add].
  destruct (demo_snapshot_not_ready
              (if Nat.ltb j 100 then StateDeleteOnly else StateWriteOnly))
    as (dbInfo & Hd & Hn); [by destruct (Nat.ltb j 100)|].
  exists dbInfo. split; [|done]. by destruct (LoadSchemaInfo_schemas _ "test" None).
Qed.

(** *** What [SyncSchema] does *)

(** C1, as the code has it.  When, counting from the call, the first [k]
    loads ([k] below the budget of 100) find a table unavailable and every
    later load finds all tables available, [SyncSchema] returns a snapshot
    whose tables are all available after exactly [k+2] calls of
    [LoadSchemaInfo]: the [k] failed attempts, each followed by its sleep,
    the attempt that breaks out of the loop, and the final load whose result
    is returned. *)
Theorem SyncSchema_ready_after_polls timgr database served k :
  (k < maxAttempts)%nat →
  ready_after timgr database served k →
  ∃ dbInfo log,
    SyncSchema timgr database served = Return (Some dbInfo) (served + k + 2) log
    ∧ AllAvailable dbInfo
    ∧ snapshotAt timgr database (served + k + 1) = Some dbInfo
    ∧ schedule log
      = concat (repeat failed_attempt k) ++ [EvGetInfoSchema; EvGetInfoSchema]
    ∧ polls log = (k + 2)%nat.
Proof.
  intros Hk Hready. unfold SyncSchema.
  destruct (SyncSchema_loop_breaks timgr database k maxAttempts served Hk Hready)
    as (log & -> & Hlog).
  destruct (LoadSchemaInfo_step timgr database (served + k + 1)) as (log' & -> & Hlog').
  destruct Hready as [_ Hafter].
  destruct (Hafter (k + 1)%nat ltac:(lia)) as (dbInfo & Hs & Ha).
  rewrite Nat.add_assoc in Hs. rewrite Hs.
  exists dbInfo, (log ++ log').
  assert (schedule (log ++ log')
          = concat (repeat failed_attempt k) ++ [EvGetInfoSchema; EvGetInfoSchema]) as Hsched.
  { by rewrite schedule_app, Hlog, Hlog', <- app_assoc. }
  split; [f_equal; lia|]. split; [done|]. split; [done|]. split; [done|].
  rewrite <- polls_schedule, Hsched, polls_attempts. cbn. lia.
Qed.

Lemma SyncSchema_ready_after_polls_witness :
  ∃ dbInfo log,
    SyncSchema (readyAfter 3) "test" 0 = Return (Some dbInfo) (0 + 3 + 2) log
    ∧ AllAvailable dbInfo
    ∧ snapshotAt (readyAfter 3) "test" (0 + 3 + 1) = Some dbInfo
    ∧ schedule log
      = concat (repeat failed_attempt 3) ++ [EvGetInfoSchema; EvGetInfoSchema]
    ∧ polls log = (3 + 2)%nat.
Proof.
  apply (SyncSchema_ready_after_polls (readyAfter 3) "test" 0 3).
  - unfold maxAttempts. lia.
  - apply readyAfter_ready_after.
Defined.

(** Against C1 as worded: on a cluster whose table [t2] is unavailable for
    the first two loads and available from the third on, [SyncSchema] returns
    after four calls of [LoadSchemaInfo], not three. *)
Lemma SyncSchema_ready_after_2_polls_4 :
  (2 < maxAttempts)%nat
  ∧ ready_after (readyAfter 2) "test" 0 2
  ∧ ∃ dbInfo log,
      SyncSchema (readyAfter 2) "test" 0 = Return (Some dbInfo) 4 log
      ∧ polls log = 4%nat
      ∧ polls log ≠ (2 + 1)%nat.
Proof.
  split; [unfold maxAttempts; lia|]. split; [apply readyAfter_ready_after|].
  eexists _, _. split; [vm_compute; reflexivity|]. by vm_compute.
Qed.

(** C2, as the code has it.  When no load ever finds all tables available,
    [SyncSchema] makes the 100 attempts of its budget, sleeping five seconds
    after each of them, then calls [LoadSchemaInfo] once more and returns
    that 101st snapshot, which still shows an unavailable table; it neither
    panics nor reports an error. *)
Theorem SyncSchema_never_ready_returns timgr database served :
  never_ready timgr database served →
  ∃ dbInfo log,
    SyncSchema timgr database served = Return (Some dbInfo) (served + 101) log
    ∧ snapshotAt timgr database (served + 100) = Some dbInfo
    ∧ ¬ AllAvailable dbInfo
    ∧ schedule log = concat (repeat failed_attempt 100) ++ [EvGetInfoSchema]
    ∧ polls log = 101%nat
    ∧ sleeps log = repeat (time_Second * 5) 100.
Proof.
  intros Hnever. unfold SyncSchema.
  destruct (SyncSchema_loop_exhausted timgr database maxAttempts served)
    as (log & -> & Hlog).
  { intros j _. apply Hnever. }
  destruct (LoadSchemaInfo_step timgr database (served + maxAttempts))
    as (log' & -> & Hlog').
  destruct (Hnever maxAttempts) as (dbInfo & Hs & Hn). rewrite Hs.
  exists dbInfo, (log ++ log').
  assert (schedule (log ++ log')
          = concat (repeat failed_attempt 100) ++ [EvGetInfoSchema]) as Hsched.
  { by rewrite schedule_app, Hlog, Hlog'. }
  split; [f_equal; unfold maxAttempts; lia|]. split; [done|]. split; [done|].
  split; [done|]. split.
  - by rewrite <- polls_schedule, Hsched, polls_attempts.
  - by rewrite <- sleeps_schedule, Hsched, sleeps_attempts, app_nil_r.
Qed.

Lemma SyncSchema_never_ready_returns_witness :
  ∃ dbInfo log,
    SyncSchema neverReady "test" 0 = Return (Some dbInfo) (0 + 101) log
    ∧ snapshotAt neverReady "test" (0 + 100) = Some dbInfo
    ∧ ¬ AllAvailable dbInfo
    ∧ schedule log = concat (repeat failed_attempt 100) ++ [EvGetInfoSchema]
    ∧ polls log = 101%nat
    ∧ sleeps log = repeat (time_Second * 5) 100.
Proof.
  apply (SyncSchema_never_ready_returns neverReady "test" 0).
  apply neverReady_never_ready.
Defined.

(** Against C2 as worded: on a cluster whose table [t2] never becomes
    available (delete-only for the first 100 loads, write-only afterwards),
    [SyncSchema] calls [LoadSchemaInfo] 101 times, one more than the budget
    of 100; it sleeps 100 times, the last sleep coming after the 100th
    attempt; and the snapshot it returns is not the one its last attempt
    observed but that of the 101st load. *)
Lemma SyncSchema_never_ready_polls_101 :
  never_ready stillPropagating "test" 0
  ∧ ∃ dbInfo log,
      SyncSchema stillPropagating "test" 0 = Return (Some dbInfo) 101 log
      ∧ polls log = 101%nat
      ∧ polls log ≠ maxAttempts
      ∧ length (sleeps log) = 100%nat
      ∧ drop 198 (schedule log)
        = [EvGetInfoSchema; EvSleep (time_Second * 5); EvGetInfoSchema]
      ∧ stateOf "t2" (snapshotAt stillPropagating "test" 99) = Some StateDeleteOnly
      ∧ stateOf "t2" (Some dbInfo) = Some StateWriteOnly.
Proof.
  split; [apply stillPropagating_never_ready|].
  eexists _, _. split; [vm_compute; reflexivity|]. by vm_compute.
Qed.

(** C10.  Whenever [LoadSchemaInfo] returns nil for the requested name at
    the moment of the call, [SyncSchema] panics on its first attempt, at the
    dereference [dbInfo.Tables], having done that single load. *)
Theorem SyncSchema_nil_snapshot_panics timgr database served :
  (LoadSchemaInfo timgr database served).1.1 = None →
  SyncSchema timgr database served
  = Panic (S served) (LoadSchemaInfo timgr database served).2.
Proof.
  intros Hnil. unfold SyncSchema, maxAttempts. cbn [SyncSchema_loop].
  destruct (LoadSchemaInfo_step timgr database served) as (log & E & _).
  unfold snapshotAt in E. rewrite Hnil in E. by rewrite E.
Qed.

Lemma SyncSchema_nil_snapshot_panics_witness :
  SyncSchema (readyAfter 0) "not_created_yet" 0
  = Panic 1 (LoadSchemaInfo (readyAfter 0) "not_created_yet" 0).2.
Proof.
  apply (SyncSchema_nil_snapshot_panics (readyAfter 0) "not_created_yet" 0).
  reflexivity.
Defined.

(** The same when the metadata read itself fails. *)
Example SyncSchema_unreachable_panics :
  SyncSchema unreachable "test" 0 = Panic 1 [EvGetInfoSchema; EvLogError].
Proof. reflexivity. Qed.

(* ===================================================================== *)
(** ** Derived predicates *)
(* ===================================================================== *)

Section Predicates.

Lemma land_bit flag i :
  0 ≤ i → (0 <? Z.land flag (Z.shiftl 1 i)) = Z.testbit flag i.
Proof.
  intros Hi. rewrite Z.shiftl_1_l.
  assert (Z.land flag (2 ^ i) = if Z.testbit flag i then 2 ^ i else 0) as ->.
  { apply Z.bits_inj'. intros n Hn. rewrite Z.land_spec, Z.pow2_bits_eqb by done.
    destruct (Z.eqb_spec i n) as [->|Hne].
    - destruct (Z.testbit flag n) eqn:E.
      + by rewrite Z.pow2_bits_true.
      + by rewrite Z.bits_0.
    - rewrite andb_false_r. destruct (Z.testbit flag i).
      + by rewrite Z.pow2_bits_false.
      + by rewrite Z.bits_0. }
  destruct (Z.testbit flag i); [|done].
  apply Z.ltb_lt. by apply Z.pow_pos_nonneg.
Qed.

Lemma HasPriKeyFlag_testbit flag : mysql.HasPriKeyFlag flag = Z.testbit flag 1.
Proof. by apply land_bit. Qed.

Lemma HasAutoIncrementFlag_testbit flag :
  mysql.HasAutoIncrementFlag flag = Z.testbit flag 9.
Proof. by apply land_bit. Qed.

Lemma WithExplicitPrimaryKey_range_true cols :
  WithExplicitPrimaryKey_range cols = true ↔ ∃ col, col ∈ cols ∧ pk_flagged col.
Proof.
  unfold pk_flagged.
  induction cols as [|c cols IH]; cbn [WithExplicitPrimaryKey_range].
  - split; [done|]. intros (col & Hin & _). by apply elem_of_nil in Hin.
  - rewrite HasPriKeyFlag_testbit. destruct (Z.testbit (ColumnInfo.Flag c) 1) eqn:E.
    + split; [|done]. intros _. exists c. split; [left|done].
    + rewrite IH. split; intros (col & Hin & Hf).
      * exists col. split; [by right|done].
      * apply elem_of_cons in Hin as [->|Hin]; [congruence|eauto].
Qed.

Lemma WithAutoIncrPrimaryKey_range_true cols :
  WithAutoIncrPrimaryKey_range cols = true
  ↔ ∃ col, col ∈ cols ∧ pk_flagged col ∧ auto_incr_flagged col.
Proof.
  unfold pk_flagged, auto_incr_flagged.
  induction cols as [|c cols IH]; cbn [WithAutoIncrPrimaryKey_range].
  - split; [done|]. intros (col & Hin & _). by apply elem_of_nil in Hin.
  - rewrite HasPriKeyFlag_testbit, HasAutoIncrementFlag_testbit.
    destruct (Z.testbit (ColumnInfo.Flag c) 1 && Z.testbit (ColumnInfo.Flag c) 9) eqn:E.
    + apply andb_true_iff in E as [E1 E9].
      split; [|done]. intros _. exists c. split; [left|done].
    + rewrite IH. split; intros (col & Hin & Hf1 & Hf9).
      * exists col. split; [by right|done].
      * apply elem_of_cons in Hin as [->|Hin]; [|eauto].
        rewrite Hf1, Hf9 in E. done.
Qed.

End Predicates.

(** C4, as the code has it.  For a table snapshot whose table has an integer
    column carrying the primary-key and auto-increment flags, the
    explicit-primary-key and auto-increment-primary-key predicates report
    true; for one whose table has no column carrying the primary-key flag
    they both report false.  In both cases the integer-primary-key predicate
    reports the table's [PKIsHandle] marker, whatever the columns are. *)
Theorem primary_key_predicates (ti : TidbTableInfo.t) :
  ((∃ col, col ∈ TableInfo.Columns (TidbTableInfo.core ti)
           ∧ mysql.IsIntegerType (ColumnInfo.Tp col) = true
           ∧ pk_flagged col ∧ auto_incr_flagged col) →
   WithExplicitPrimaryKey ti = true
   ∧ WithAutoIncrPrimaryKey ti = true
   ∧ WithIntegerPrimaryKey ti = TableInfo.PKIsHandle (TidbTableInfo.core ti))
  ∧ ((∀ col, col ∈ TableInfo.Columns (TidbTableInfo.core ti) → ¬ pk_flagged col) →
     WithExplicitPrimaryKey ti = false
     ∧ WithAutoIncrPrimaryKey ti = false
     ∧ WithIntegerPrimaryKey ti = TableInfo.PKIsHandle (TidbTableInfo.core ti)).
Proof.
  unfold WithExplicitPrimaryKey, WithAutoIncrPrimaryKey, WithIntegerPrimaryKey.
  split.
  - intros (col & Hin & _ & Hpk & Hai). split; [|split; [|done]].
    + apply WithExplicitPrimaryKey_range_true. eauto.
    + apply WithAutoIncrPrimaryKey_range_true. eauto.
  - intros Hno. split; [|split; [|done]].
    + apply not_true_is_false. rewrite WithExplicitPrimaryKey_range_true.
      intros (col & Hin & Hpk). by apply (Hno col).
    + apply not_true_is_false. rewrite WithAutoIncrPrimaryKey_range_true.
      intros (col & Hin & Hpk & _). by apply (Hno col).
Qed.

Lemma primary_key_predicates_witness :
  ∃ ti tj,
    snapshot_of (demoTable 45 "t1" StatePublic) = Some ti
    ∧ snapshot_of heapTable = Some tj
    ∧ (WithExplicitPrimaryKey ti = true
       ∧ WithAutoIncrPrimaryKey ti = true
       ∧ WithIntegerPrimaryKey ti = true)
    ∧ (WithExplicitPrimaryKey tj = false
       ∧ WithAutoIncrPrimaryKey tj = false
       ∧ WithIntegerPrimaryKey tj = false).
Proof.
  eexists _, _. split; [reflexivity|]. split; [reflexivity|]. split.
  - refine (proj1 (primary_key_predicates _) _).
    eexists. split; [left|]. by vm_compute.
  - refine (proj2 (primary_key_predicates _) _).
    intros col Hin. apply list_elem_of_singleton in Hin as ->. by vm_compute.
Defined.

(** Against C4 as worded: the snapshot of a table with a single integer
    column flagged primary key and auto-increment, whose [PKIsHandle] marker
    the cluster left unset, reports integer-primary-key = false. *)
Lemma integer_primary_key_not_derived :
  ∃ ti col,
    snapshot_of noHandleTable = Some ti
    ∧ TableInfo.Columns (TidbTableInfo.core ti) = [col]
    ∧ mysql.IsIntegerType (ColumnInfo.Tp col) = true
    ∧ pk_flagged col ∧ auto_incr_flagged col
    ∧ WithExplicitPrimaryKey ti = true
    ∧ WithAutoIncrPrimaryKey ti = true
    ∧ WithIntegerPrimaryKey ti = false.
Proof. eexists _, _. split; [reflexivity|]. by vm_compute. Qed.

(** The same on a table whose primary key spans the integer auto-increment
    column and a second column. *)
Example composite_key_predicates :
  ∃ ti,
    snapshot_of compositeKeyTable = Some ti
    ∧ WithExplicitPrimaryKey ti = true
    ∧ WithAutoIncrPrimaryKey ti = true
    ∧ WithIntegerPrimaryKey ti = false.
Proof. eexists. split; [reflexivity|]. by vm_compute. Qed.

(* ===================================================================== *)
(** ** GC life time *)
(* ===================================================================== *)

Section GCLifeTime_facts.

Lemma strip_prefix_app p s : sql.strip_prefix p (p +:+ s) = Some s.
Proof.
  induction p as [|a p IH]; [done|].
  change (String a p +:+ s) with (String a (p +:+ s)).
  cbn [sql.strip_prefix]. by rewrite bool_decide_eq_true_2.
Qed.

(** A value without quote or backslash is read back as it was written, up
    to the quote that closes it. *)
Lemma lex_quoted_plain v rest :
  plain_value v = true →
  sql.strip_prefix (String sql.quote EmptyString) rest = None →
  sql.lex_quoted (v +:+ String sql.quote rest) = Some (v, rest).
Proof.
  intros Hv Hrest. induction v as [|c v IH].
  - change (EmptyString +:+ String sql.quote rest) with (String sql.quote rest).
    cbn [sql.lex_quoted]. rewrite bool_decide_eq_true_2 by done.
    destruct rest as [|c' rest']; [done|].
    cbn in Hrest. destruct (bool_decide (sql.quote = c')) eqn:E; [done|].
    apply bool_decide_eq_false in E.
    rewrite bool_decide_eq_false_2 by congruence. done.
  - cbn in Hv. apply andb_true_iff in Hv as [Hc Hv].
    apply andb_true_iff in Hc as [Hq Hb].
    apply negb_true_iff in Hq, Hb.
    change (String c v +:+ String sql.quote rest)
      with (String c (v +:+ String sql.quote rest)).
    cbn [sql.lex_quoted]. rewrite Hq, Hb, (IH Hv). done.
Qed.

Lemma parse_update_plain v :
  plain_value v = true →
  sql.parse_update (UpdateGCLifeTime_query v) = Some (v, "tikv_gc_life_time").
Proof.
  intros Hv. unfold sql.parse_update, UpdateGCLifeTime_query.
  rewrite strip_prefix_app.
  change ("' WHERE VARIABLE_NAME = 'tikv_gc_life_time'")
    with (String sql.quote " WHERE VARIABLE_NAME = 'tikv_gc_life_time'").
  rewrite lex_quoted_plain by done. reflexivity.
Qed.

(** The store after a successful update of a plain value, written out. *)
Lemma GCLifeTime_round_trip_aux db gcLifeTime :
  plain_value gcLifeTime = true →
  is_Some (sql.mysql_tidb db !! "tikv_gc_life_time") →
  let db' :=
    {| sql.mysql_tidb := <["tikv_gc_life_time" := gcLifeTime]> (sql.mysql_tidb db) |} in
  UpdateGCLifeTime db gcLifeTime = (db', None)
  ∧ ObtainGCLifeTime db' = (gcLifeTime, None).
Proof.
  intros Hplain [old Hrow] db'. subst db'. split.
  - unfold UpdateGCLifeTime, sql.Exec.
    rewrite parse_update_plain by done. by rewrite Hrow.
  - unfold ObtainGCLifeTime, sql.QueryRow_Scan.
    change (sql.parse_select _) with (Some "tikv_gc_life_time").
    cbn [sql.mysql_tidb]. by rewrite lookup_insert_eq.
Qed.

End GCLifeTime_facts.

(** C5, as the code has it.  For every value containing no single quote and
    no backslash, when the [tikv_gc_life_time] row exists,
    [UpdateGCLifeTime] succeeds and a following [ObtainGCLifeTime] returns
    exactly that value. *)
Theorem GCLifeTime_round_trip db gcLifeTime :
  plain_value gcLifeTime = true →
  is_Some (sql.mysql_tidb db !! "tikv_gc_life_time") →
  ∃ db',
    UpdateGCLifeTime db gcLifeTime = (db', None)
    ∧ ObtainGCLifeTime db' = (gcLifeTime, None).
Proof.
  intros Hplain [old Hrow]. unfold UpdateGCLifeTime, sql.Exec.
  rewrite parse_update_plain by done. rewrite Hrow.
  eexists. split; [done|].
  unfold ObtainGCLifeTime, sql.QueryRow_Scan.
  change (sql.parse_select _) with (Some "tikv_gc_life_time").
  cbn [sql.mysql_tidb]. by rewrite lookup_insert_eq.
Qed.

Lemma GCLifeTime_round_trip_witness :
  ∃ db',
    UpdateGCLifeTime demoDB "720h0m0s" = (db', None)
    ∧ ObtainGCLifeTime db' = ("720h0m0s", None).
Proof.
  apply (GCLifeTime_round_trip demoDB "720h0m0s").
  - reflexivity.
  - exists "10m0s". reflexivity.
Defined.

(** Against C5 as worded: the value made of two single quotes is accepted by
    [UpdateGCLifeTime] and read back by [ObtainGCLifeTime] as one single
    quote. *)
Lemma GCLifeTime_quotes_not_preserved :
  ∃ db',
    UpdateGCLifeTime demoDB "''" = (db', None)
    ∧ ObtainGCLifeTime db' = ("'", None)
    ∧ "'" ≠ "''".
Proof. eexists. split; [reflexivity|]. split; [reflexivity|done]. Qed.

(* ===================================================================== *)
(** ** The rate-limited writer *)
(* ===================================================================== *)

Import storage.

Section Limiter_facts.

(** A fresh limiter is full at any instant a billion seconds or more after
    Go's zero time: taking the whole burst succeeds and leaves it empty. *)
Lemma AllowN_fresh_burst r b now :
  0 < r → 0 ≤ b → b * rate.unit_ ≤ now → b * rate.unit_ ≤ rate.InfDuration →
  rate.AllowN (rate.NewLimiter r b) now b
  = (true, {| rate.limit := r; rate.burst := b; rate.tokens := 0;
              rate.last := now; rate.lastEvent := now |}).
Proof.
  intros Hr Hb Hnow Hinf.
  unfold rate.AllowN, rate.reserveN, rate.NewLimiter, rate.advance.
  cbn [rate.limit rate.burst rate.tokens rate.last rate.lastEvent].
  assert (0 < rate.unit_) as Hu by done.
  rewrite (proj2 (Z.eqb_neq r 0)) by lia.
  rewrite (proj2 (Z.ltb_ge now 0)) by lia.
  unfold rate.tokensFromDuration.
  set (elapsed := rate.time_Sub now 0).
  assert (b * rate.unit_ ≤ elapsed) as He.
  { unfold elapsed, rate.time_Sub, rate.minDuration. rewrite Z.sub_0_r.
    unfold rate.InfDuration in *. lia. }
  assert (b * rate.unit_ ≤ 0 + elapsed * r) as Hfull by nia.
  assert ((if b * rate.unit_ <? 0 + elapsed * r
           then b * rate.unit_ else 0 + elapsed * r) = b * rate.unit_) as ->.
  { destruct (Z.ltb_spec (b * rate.unit_) (0 + elapsed * r)); lia. }
  rewrite Z.sub_diag. cbn [Z.ltb Z.compare].
  rewrite (proj2 (Z.leb_le b b)) by lia. cbn [Z.leb Z.compare andb rate.ok].
  by rewrite Z.add_0_r.
Qed.


(** A wait cut short by the context ends with the context's error, at the
    instant the context is done. *)
Lemma WaitN_canceled lim ctx n now c :
  wait_canceled_at lim ctx n now c →
  ∃ lim', rate.WaitN lim ctx n now = (Some (context.Err ctx), lim', c).
Proof.
  intros (Hn & Hdone & Hc & Hok & Hcut). unfold rate.WaitN.
  rewrite (proj2 (Z.ltb_ge (rate.burst lim) n)) by lia.
  unfold context.done_by. rewrite Hdone.
  rewrite (proj2 (Z.leb_gt c now)) by lia.
  destruct (rate.reserveN lim now n _) as [r lim'].
  cbn [fst] in Hok, Hcut. rewrite Hok. cbn [negb].
  destruct (Z.eqb_spec (rate.DelayFrom r now) 0) as [E|_]; [lia|].
  rewrite (proj2 (Z.ltb_lt c (now + rate.DelayFrom r now))) by lia.
  by eexists.
Qed.

End Limiter_facts.

Section Decorator_facts.
Context {S W : Type} `{!ExternalFileWriter W} `{!ExternalStorage S W}.


(** C7.  When the inner write returns an error, [Write] returns that error
    with the inner byte count, at the instant the inner write returned and
    with the limiter untouched. *)
Theorem Write_inner_error (rw : withRateLimitWriter W) ctx p now n err w' now' :
  Write (inner_ExternalFileWriter rw) ctx p now = ((n, Some err), w', now') →
  withRateLimitWriter_Write rw ctx p now
  = ((n, Some err),
     {| inner_ExternalFileWriter := w'; limiter := limiter rw |}, now').
Proof.
  intros Hinner. unfold withRateLimitWriter_Write.
  destruct (limiter rw) as [lim|]; by rewrite Hinner.
Qed.

(** C6.  When the inner write accepts [n] bytes and the wait that follows is
    cut short by the context at [c], [Write] returns [n] together with the
    context's error, at instant [c]. *)
Theorem Write_wait_canceled (rw : withRateLimitWriter W) lim ctx p now n w' now' c :
  limiter rw = Some lim →
  Write (inner_ExternalFileWriter rw) ctx p now = ((n, None), w', now') →
  wait_canceled_at lim ctx n now' c →
  ∃ lim',
    withRateLimitWriter_Write rw ctx p now
    = ((n, Some (context.Err ctx)),
       {| inner_ExternalFileWriter := w'; limiter := Some lim' |}, c).
Proof.
  intros Hlim Hinner Hcut. unfold withRateLimitWriter_Write.
  rewrite Hlim, Hinner.
  destruct (WaitN_canceled lim ctx n now' c Hcut) as (lim' & ->).
  by exists lim'.
Qed.

(** C8.  With a ceiling of 0, [WithRatelimit] returns the inner storage
    itself; creating through the returned value is the inner [Create] and
    hands out the inner writer unwrapped, whose [Write] and [Close] are the
    inner ones, with the same results, the same sink afterwards and the same
    instant of return. *)
Theorem WithRatelimit_zero_is_inner (inner : S) :
  WithRatelimit inner 0 = inl inner
  ∧ (∀ ctx name now,
       iface_Create (WithRatelimit inner 0) ctx name now
       = let '(res, s, now') := Create inner ctx name now in
         (match res with Ok w => Ok (inl w) | Failed err => Failed err end,
          inl s, now'))
  ∧ (∀ (w : W) ctx p now,
       iface_Write (inl w) ctx p now
       = let '(res, w', now') := Write w ctx p now in (res, inl w', now'))
  ∧ (∀ (w : W) ctx now,
       iface_Close (inl w) ctx now
       = let '(err, w', now') := Close w ctx now in (err, inl w', now')).
Proof. repeat split. Qed.

End Decorator_facts.


(** A write of 5000 bytes into a blob with room for 4096. *)
Lemma Write_inner_error_witness :
  withRateLimitWriter_Write demoWriter context.Background (payload 5000)
    (anInstant + 2 * time_Millisecond)
  = ((4096, Some (io_Error "short write")),
     {| inner_ExternalFileWriter :=
          {| blob := payload 4096; room := 0; latency := 2 * time_Millisecond |};
        limiter := limiter demoWriter |},
     anInstant + 4 * time_Millisecond).
Proof.
  apply (Write_inner_error demoWriter context.Background (payload 5000)
           (anInstant + 2 * time_Millisecond)).
  by vm_compute.
Defined.

(** A write of 500 bytes at 1000 bytes per second would wait half a second;
    the context is canceled 100 ms after the write is entered. *)
Lemma Write_wait_canceled_witness :
  ∃ lim',
    withRateLimitWriter_Write demoWriter
      (cancelAt (anInstant + 102 * time_Millisecond)) (payload 500)
      (anInstant + 2 * time_Millisecond)
    = ((500, Some context_Canceled),
       {| inner_ExternalFileWriter :=
            {| blob := payload 500; room := 3596; latency := 2 * time_Millisecond |};
          limiter := Some lim' |},
       anInstant + 102 * time_Millisecond).
Proof.
  eapply (Write_wait_canceled demoWriter _
            (cancelAt (anInstant + 102 * time_Millisecond)) (payload 500)
            (anInstant + 2 * time_Millisecond) 500 _
            (anInstant + 4 * time_Millisecond)).
  - reflexivity.
  - by vm_compute.
  - by vm_compute.
Defined.

(* ===================================================================== *)
(** ** Further properties of the readiness loop *)
(* ===================================================================== *)

Section SyncSchema_general.

Variable timgr : TiDBManager.
Variable database : string.

Lemma polls_app l1 l2 : polls (l1 ++ l2) = (polls l1 + polls l2)%nat.
Proof. unfold polls. by rewrite List.filter_app, length_app. Qed.

Lemma sleeps_app l1 l2 : sleeps (l1 ++ l2) = sleeps l1 ++ sleeps l2.
Proof. unfold sleeps. apply omap_app. Qed.

Lemma polls_one_load log : schedule log = [EvGetInfoSchema] → polls log = 1%nat.
Proof. intros H. by rewrite <- polls_schedule, H. Qed.

Lemma sleeps_one_load log : schedule log = [EvGetInfoSchema] → sleeps log = [].
Proof. intros H. by rewrite <- sleeps_schedule, H. Qed.

(** Whatever the cluster answers, [remaining] attempts load at most
    [remaining] times and sleep five seconds at most as often. *)
Lemma SyncSchema_loop_budget remaining served :
  ∃ j, (j ≤ remaining)%nat ∧
    match SyncSchema_loop timgr database remaining served with
    | Return _ s log | Panic s log =>
        (polls log ≤ remaining)%nat
        ∧ s = (served + polls log)%nat
        ∧ sleeps log = repeat (time_Second * 5) j
    end.
Proof.
  revert served. induction remaining as [|remaining IH]; intros served.
  { exists 0%nat. cbn. split; [lia|]. split; [lia|]. split; [lia|done]. }
  destruct (snapshotAt timgr database served) as [dbInfo|] eqn:Hs.
  - destruct (SyncSchema_range (map_to_list (TidbDBInfo.Tables dbInfo)) true) eqn:Hr.
    + apply SyncSchema_range_AllAvailable in Hr.
      destruct (SyncSchema_loop_ready timgr database remaining served dbInfo Hs Hr)
        as (log & Hlog & ->).
      exists 0%nat. rewrite (polls_one_load _ Hlog), (sleeps_one_load _ Hlog).
      split; [lia|]. split; [lia|]. split; [lia|done].
    + assert (¬ AllAvailable dbInfo) as Hn.
      { intros Ha. apply SyncSchema_range_AllAvailable in Ha. congruence. }
      destruct (SyncSchema_loop_not_ready timgr database remaining served dbInfo Hs Hn)
        as (log & Hlog & ->).
      destruct (IH (S served)) as (j & Hj & Hrec).
      assert (polls log = 1%nat) as Hp by (by rewrite <- polls_schedule, Hlog).
      assert (sleeps log = [time_Second * 5]) as Hsl
        by (by rewrite <- sleeps_schedule, Hlog).
      exists (S j). split; [lia|].
      destruct (SyncSchema_loop timgr database remaining (S served))
        as [r s log'|s log']; destruct Hrec as (H1 & H2 & H3);
        rewrite polls_app, sleeps_app, Hp, Hsl, H3;
        (split; [lia|]); (split; [lia|done]).
  - destruct (SyncSchema_loop_nil timgr database remaining served Hs) as (log & E).
    exists 0%nat. split; [lia|].
    cbn [SyncSchema_loop] in *.
    destruct (LoadSchemaInfo_step timgr database served) as (log0 & E0 & Hlog0).
    rewrite E0, Hs in *. injection E as <-.
    rewrite (polls_one_load _ Hlog0), (sleeps_one_load _ Hlog0).
    split; [lia|]. split; [lia|done].
Qed.

(** The loop panics exactly when a load returns nil before any attempt has
    found all tables available. *)
Lemma SyncSchema_loop_panics_iff remaining served :
  (∃ s log, SyncSchema_loop timgr database remaining served = Panic s log)
  ↔ ∃ i, (i < remaining)%nat
       ∧ snapshotAt timgr database (served + i) = None
       ∧ ∀ j, (j < i)%nat → ∃ d,
           snapshotAt timgr database (served + j) = Some d ∧ ¬ AllAvailable d.
Proof.
  revert served. induction remaining as [|remaining IH]; intros served.
  { split; [intros (s & log & H); discriminate H|intros (i & Hi & _); lia]. }
  destruct (snapshotAt timgr database served) as [dbInfo|] eqn:Hs.
  - destruct (SyncSchema_range (map_to_list (TidbDBInfo.Tables dbInfo)) true) eqn:Hr.
    + apply SyncSchema_range_AllAvailable in Hr.
      destruct (SyncSchema_loop_ready timgr database remaining served dbInfo Hs Hr)
        as (log & Hlog & ->).
      split; [intros (s & l & H); discriminate H|].
      intros (i & Hi & Hnil & Hbefore). destruct i as [|i].
      * rewrite Nat.add_0_r in Hnil. congruence.
      * destruct (Hbefore 0%nat ltac:(lia)) as (d & Hd & Hnd).
        rewrite Nat.add_0_r in Hd. congruence.
    + assert (¬ AllAvailable dbInfo) as Hn.
      { intros Ha. apply SyncSchema_range_AllAvailable in Ha. congruence. }
      destruct (SyncSchema_loop_not_ready timgr database remaining served dbInfo Hs Hn)
        as (log & Hlog & ->).
      specialize (IH (S served)). split.
      * intros (s & l & H).
        destruct (SyncSchema_loop timgr database remaining (S served))
          as [r s' log'|s' log'] eqn:E; [discriminate H|].
        destruct (proj1 IH) as (i & Hi & Hnil & Hbefore); [eauto|].
        exists (S i). split; [lia|]. split; [by rewrite <- Nat.add_succ_comm|].
        intros j Hj. destruct j as [|j].
        -- exists dbInfo. by rewrite Nat.add_0_r.
        -- destruct (Hbefore j ltac:(lia)) as (d & Hd & Hnd).
           exists d. by rewrite <- Nat.add_succ_comm.
      * intros (i & Hi & Hnil & Hbefore). destruct i as [|i].
        { rewrite Nat.add_0_r in Hnil. congruence. }
        destruct (proj2 IH) as (s & l & ->).
        { exists i. split; [lia|]. split; [by rewrite Nat.add_succ_comm|].
          intros j Hj. destruct (Hbefore (S j) ltac:(lia)) as (d & Hd & Hnd).
          exists d. by rewrite Nat.add_succ_comm. }
        eauto.
  - destruct (SyncSchema_loop_nil timgr database remaining served Hs) as (log & ->).
    split; [|eauto]. intros _. exists 0%nat. split; [lia|].
    split; [by rewrite Nat.add_0_r|]. intros j Hj. lia.
Qed.

(** When the loop returns, either it used up its attempts or its last load
    found all tables available. *)
Lemma SyncSchema_loop_returns remaining served r s log :
  SyncSchema_loop timgr database remaining served = Return r s log →
  s = (served + remaining)%nat
  ∨ ∃ s' d, s = S s' ∧ (served ≤ s')%nat
      ∧ snapshotAt timgr database s' = Some d ∧ AllAvailable d.
Proof.
  revert served r s log.
  induction remaining as [|remaining IH]; intros served r s log.
  { cbn. intros [= _ <- _]. left. lia. }
  destruct (snapshotAt timgr database served) as [dbInfo|] eqn:Hs.
  - destruct (SyncSchema_range (map_to_list (TidbDBInfo.Tables dbInfo)) true) eqn:Hr.
    + apply SyncSchema_range_AllAvailable in Hr.
      destruct (SyncSchema_loop_ready timgr database remaining served dbInfo Hs Hr)
        as (log0 & Hlog & ->).
      intros [= _ <- _]. right. exists served, dbInfo. split; [done|]. by split.
    + assert (¬ AllAvailable dbInfo) as Hn.
      { intros Ha. apply SyncSchema_range_AllAvailable in Ha. congruence. }
      destruct (SyncSchema_loop_not_ready timgr database remaining served dbInfo Hs Hn)
        as (log0 & Hlog & ->).
      destruct (SyncSchema_loop timgr database remaining (S served))
        as [r' s' log'|s' log'] eqn:E; [|done].
      intros [= _ <- _].
      destruct (IH _ _ _ _ E) as [->|(s'' & d & -> & Hle & Hd & Ha)]; [left; lia|].
      right. exists s'', d. split; [done|]. split; [lia|done].
  - destruct (SyncSchema_loop_nil timgr database remaining served Hs) as (log0 & ->).
    done.
Qed.

End SyncSchema_general.

(** X1.  Whatever the cluster answers, and however the call ends,
    [SyncSchema] calls [LoadSchemaInfo] at most 101 times and sleeps at most
    100 times, five seconds each. *)
Theorem SyncSchema_within_budget timgr database served :
  ∃ j, (j ≤ 100)%nat ∧
    match SyncSchema timgr database served with
    | Return _ s log | Panic s log =>
        (polls log ≤ 101)%nat
        ∧ s = (served + polls log)%nat
        ∧ sleeps log = repeat (time_Second * 5) j
    end.
Proof.
  unfold SyncSchema.
  destruct (SyncSchema_loop_budget timgr database maxAttempts served) as (j & Hj & H).
  exists j. split; [done|].
  destruct (SyncSchema_loop timgr database maxAttempts served) as [r s log|s log];
    destruct H as (H1 & H2 & H3); unfold maxAttempts in *.
  - destruct (LoadSchemaInfo_step timgr database s) as (log' & -> & Hlog').
    rewrite polls_app, sleeps_app, (polls_one_load _ Hlog'), (sleeps_one_load _ Hlog').
    rewrite app_nil_r. split; [lia|]. split; [lia|done].
  - split; [lia|]. by split.
Qed.

(** X2.  [SyncSchema] panics exactly when, within its 100 attempts, a load
    returns nil before any attempt has found all tables available. *)
Theorem SyncSchema_panics_iff timgr database served :
  (∃ s log, SyncSchema timgr database served = Panic s log)
  ↔ ∃ i, (i < 100)%nat
       ∧ snapshotAt timgr database (served + i) = None
       ∧ ∀ j, (j < i)%nat → ∃ d,
           snapshotAt timgr database (served + j) = Some d ∧ ¬ AllAvailable d.
Proof.
  rewrite <- (SyncSchema_loop_panics_iff timgr database 100 served).
  unfold SyncSchema, maxAttempts.
  destruct (SyncSchema_loop timgr database 100 served) as [r s log|s log].
  - destruct (LoadSchemaInfo timgr database s) as [[d s'] log'].
    split; intros (s0 & l0 & H); discriminate H.
  - split; intros _; eauto.
Qed.

(** X3.  When [SyncSchema] returns, its result is the snapshot of a load made
    after the loop, which no attempt examined; before that load the loop either
    used up its 100 attempts or had just found all tables available. *)
Theorem SyncSchema_returns_fresh_load timgr database served r s log :
  SyncSchema timgr database served = Return r s log →
  ∃ s1, s = S s1
    ∧ r = snapshotAt timgr database s1
    ∧ (s1 = (served + 100)%nat
       ∨ ∃ s0 d, s1 = S s0 ∧ (served ≤ s0)%nat
           ∧ snapshotAt timgr database s0 = Some d ∧ AllAvailable d).
Proof.
  unfold SyncSchema, maxAttempts.
  destruct (SyncSchema_loop timgr database 100 served) as [r1 s1 log1|s1 log1] eqn:E;
    [|done].
  destruct (LoadSchemaInfo_step timgr database s1) as (log' & -> & _).
  intros [= <- <- _]. exists s1. split; [done|]. split; [done|].
  apply (SyncSchema_loop_returns _ _ _ _ _ _ _ E).
Qed.

Lemma SyncSchema_returns_fresh_load_witness :
  ∃ r log,
    SyncSchema (readyAfter 3) "test" 0 = Return r 5 log
    ∧ ∃ s1, 5%nat = S s1
        ∧ r = snapshotAt (readyAfter 3) "test" s1
        ∧ (s1 = (0 + 100)%nat
           ∨ ∃ s0 d, s1 = S s0 ∧ (0 ≤ s0)%nat
               ∧ snapshotAt (readyAfter 3) "test" s0 = Some d ∧ AllAvailable d).
Proof.
  eexists _, _. split; [vm_compute; reflexivity|].
  eapply (SyncSchema_returns_fresh_load (readyAfter 3) "test" 0 _ 5 _).
  vm_compute. reflexivity.
Defined.

(* ===================================================================== *)
(** ** Further properties of the snapshots and the predicates *)
(* ===================================================================== *)

Section Snapshot_general.

(** A name carried by none of the tables keeps the entry it had. *)
Lemma LoadSchemaInfo_tables_other tbls (Tables : gmap string TidbTableInfo.t) name :
  name ∉ map tableName tbls →
  (LoadSchemaInfo_tables tbls Tables).1 !! name = Tables !! name.
Proof.
  revert Tables. induction tbls as [|tbl rest IH]; intros Tables Hnot; [done|].
  cbn [LoadSchemaInfo_tables]. tables_step rest IH. cbn [fst] in *.
  cbn [map] in Hnot. apply not_elem_of_cons in Hnot as [Hne Hrest].
  rewrite IH by done. by rewrite lookup_insert_ne.
Qed.

Lemma LoadSchemaInfo_tables_names tbls (Tables : gmap string TidbTableInfo.t) :
  dom (LoadSchemaInfo_tables tbls Tables).1
  = dom Tables ∪ list_to_set (map tableName tbls).
Proof.
  revert Tables. induction tbls as [|tbl rest IH]; intros Tables.
  - cbn. by rewrite (right_id_L ∅ (∪)).
  - cbn [LoadSchemaInfo_tables]. tables_step rest IH. cbn [fst map list_to_set] in *.
    rewrite IH, dom_insert_L.
    by rewrite (assoc_L (∪) (dom Tables)), (comm_L (∪) (dom Tables)).
Qed.

(** With pairwise distinct names, each table's entry is built from that
    very table. *)
Lemma LoadSchemaInfo_tables_distinct tbls (Tables : gmap string TidbTableInfo.t) tbl :
  NoDup (map tableName tbls) →
  tbl ∈ tbls →
  ∃ ti, (LoadSchemaInfo_tables tbls Tables).1 !! tableName tbl = Some ti
        ∧ reflects ti tbl.
Proof.
  revert Tables. induction tbls as [|t rest IH]; intros Tables Hnd Hin.
  { by apply elem_of_nil in Hin. }
  cbn [map] in Hnd. apply NoDup_cons in Hnd as [Hfresh Hnd].
  apply elem_of_cons in Hin as [->|Hin].
  - pose proof (LoadSchemaInfo_tables_other rest
                  (<[tableName t :=
                      {| TidbTableInfo.ID := TableInfo.ID t;
                         TidbTableInfo.Name := tableName t;
                         TidbTableInfo.Columns := Z.of_nat (length (TableInfo.Columns t));
                         TidbTableInfo.Indices := Z.of_nat (length (TableInfo.Indices t));
                         TidbTableInfo.Available :=
                           bool_decide (TableInfo.State t = StatePublic);
                         TidbTableInfo.core := t |}]> Tables)
                  (tableName t) Hfresh) as Hother.
    cbn [LoadSchemaInfo_tables].
    unfold tableName in *.
    destruct (LoadSchemaInfo_tables rest _) as [T' log]. cbn [fst] in *.
    rewrite Hother, lookup_insert_eq. eexists. split; [done|].
    unfold reflects; cbn. rewrite bool_decide_eq_true. tauto.
  - cbn [LoadSchemaInfo_tables]. tables_step rest IH. cbn [fst] in *.
    by apply IH.
Qed.

End Snapshot_general.

(** X4.  When the tables of the matching database carry pairwise distinct
    names, the snapshot has exactly one entry per table, stored under the
    table's name and built from that very table (identifier, column and
    index counts, availability). *)
Theorem LoadSchemaInfo_one_entry_per_table timgr database served pre db post :
  infoSchemaAt timgr served = Some (pre ++ db :: post) →
  CIStr.String_ (DBInfo.Name db) = database →
  (∀ d, d ∈ post → CIStr.String_ (DBInfo.Name d) ≠ database) →
  NoDup (map tableName (DBInfo.Tables db)) →
  ∃ dbInfo,
    snapshotAt timgr database served = Some dbInfo
    ∧ size (TidbDBInfo.Tables dbInfo) = length (DBInfo.Tables db)
    ∧ ∀ tbl, tbl ∈ DBInfo.Tables db →
        ∃ ti, TidbDBInfo.Tables dbInfo !! tableName tbl = Some ti ∧ reflects ti tbl.
Proof.
  intros Hread Hname Hpost Hnd.
  unfold snapshotAt, LoadSchemaInfo, GetInfoSchema. rewrite Hread.
  pose proof (LoadSchemaInfo_schemas_match pre db post database None Hname Hpost) as Hm.
  destruct (LoadSchemaInfo_schemas (pre ++ db :: post) database None) as [r log].
  cbn in Hm. subst r. eexists. split; [done|]. cbn [TidbDBInfo.Tables]. split.
  - rewrite <- size_dom, LoadSchemaInfo_tables_names, dom_empty_L, (left_id_L ∅ (∪)).
    rewrite size_list_to_set by done. by rewrite length_map.
  - intros tbl Hin. by apply LoadSchemaInfo_tables_distinct.
Qed.

Lemma LoadSchemaInfo_one_entry_per_table_witness :
  ∃ dbInfo,
    snapshotAt (readyAfter 1) "test" 0 = Some dbInfo
    ∧ size (TidbDBInfo.Tables dbInfo) = 2%nat
    ∧ ∀ tbl, tbl ∈ [demoTable 45 "t1" StatePublic; demoTable 47 "t2" StateWriteOnly] →
        ∃ ti, TidbDBInfo.Tables dbInfo !! tableName tbl = Some ti ∧ reflects ti tbl.
Proof.
  apply (LoadSchemaInfo_one_entry_per_table (readyAfter 1) "test" 0
           [ {| DBInfo.ID := 1; DBInfo.Name := CIStr_of "mysql";
                DBInfo.Tables := []; DBInfo.State := StatePublic |} ]
           {| DBInfo.ID := 2; DBInfo.Name := CIStr_of "test";
              DBInfo.Tables :=
                [demoTable 45 "t1" StatePublic; demoTable 47 "t2" StateWriteOnly];
              DBInfo.State := StatePublic |}
           []).
  - reflexivity.
  - reflexivity.
  - intros d Hd. by apply elem_of_nil in Hd.
  - apply (bool_decide_unpack _). by vm_compute.
Defined.

(** X5.  The explicit-primary-key predicate is true exactly when some column
    carries the primary-key bit; the auto-increment-primary-key predicate is
    true exactly when one and the same column carries both the primary-key
    and the auto-increment bits, and then the explicit-primary-key predicate
    is true as well.  Neither looks at the column types or at [PKIsHandle]. *)
Theorem primary_key_predicates_iff (ti : TidbTableInfo.t) :
  (WithExplicitPrimaryKey ti = true
   ↔ ∃ col, col ∈ TableInfo.Columns (TidbTableInfo.core ti) ∧ pk_flagged col)
  ∧ (WithAutoIncrPrimaryKey ti = true
     ↔ ∃ col, col ∈ TableInfo.Columns (TidbTableInfo.core ti)
              ∧ pk_flagged col ∧ auto_incr_flagged col)
  ∧ (WithAutoIncrPrimaryKey ti = true → WithExplicitPrimaryKey ti = true).
Proof.
  unfold WithExplicitPrimaryKey, WithAutoIncrPrimaryKey.
  split; [apply WithExplicitPrimaryKey_range_true|].
  split; [apply WithAutoIncrPrimaryKey_range_true|].
  rewrite WithExplicitPrimaryKey_range_true, WithAutoIncrPrimaryKey_range_true.
  intros (col & Hin & Hpk & _). eauto.
Qed.

(* ===================================================================== *)
(** ** Further properties of the GC life-time accessors *)
(* ===================================================================== *)

(** X6.  When the [tikv_gc_life_time] row is missing, [UpdateGCLifeTime]
    of a value without quote or backslash reports success and leaves the
    store as it was: it does not create the row, and [ObtainGCLifeTime]
    keeps failing with [sql.ErrNoRows] and the empty string. *)
Theorem GCLifeTime_missing_row db gcLifeTime :
  sql.mysql_tidb db !! "tikv_gc_life_time" = None →
  plain_value gcLifeTime = true →
  UpdateGCLifeTime db gcLifeTime = (db, None)
  ∧ ObtainGCLifeTime db = (EmptyString, Some sql_ErrNoRows).
Proof.
  intros Hrow Hplain. split.
  - unfold UpdateGCLifeTime, sql.Exec.
    rewrite parse_update_plain by done. by rewrite Hrow.
  - unfold ObtainGCLifeTime, sql.QueryRow_Scan.
    change (sql.parse_select _) with (Some "tikv_gc_life_time").
    cbn beta iota. by rewrite Hrow.
Qed.

Lemma GCLifeTime_missing_row_witness :
  UpdateGCLifeTime {| sql.mysql_tidb := {[ "tikv_gc_run_interval" := "10m0s" ]} |}
    "720h0m0s"
  = ({| sql.mysql_tidb := {[ "tikv_gc_run_interval" := "10m0s" ]} |}, None)
  ∧ ObtainGCLifeTime {| sql.mysql_tidb := {[ "tikv_gc_run_interval" := "10m0s" ]} |}
    = (EmptyString, Some sql_ErrNoRows).
Proof.
  apply (GCLifeTime_missing_row
           {| sql.mysql_tidb := {[ "tikv_gc_run_interval" := "10m0s" ]} |} "720h0m0s").
  - reflexivity.
  - reflexivity.
Defined.

(** X7.  Read, extend, restore: when [ObtainGCLifeTime] returns [old]
    without error, and neither [old] nor the new value contains a quote or a
    backslash, updating to the new value and then back to [old] both succeed,
    the new value is read in between, and the store ends exactly as it
    began. *)
Theorem GCLifeTime_restore db old new :
  ObtainGCLifeTime db = (old, None) →
  plain_value old = true →
  plain_value new = true →
  ∃ db1,
    UpdateGCLifeTime db new = (db1, None)
    ∧ ObtainGCLifeTime db1 = (new, None)
    ∧ UpdateGCLifeTime db1 old = (db, None).
Proof.
  intros Hold Hpo Hpn.
  assert (sql.mysql_tidb db !! "tikv_gc_life_time" = Some old) as Hrow.
  { unfold ObtainGCLifeTime, sql.QueryRow_Scan in Hold.
    change (sql.parse_select _) with (Some "tikv_gc_life_time") in Hold.
    cbn beta iota in Hold. destruct (sql.mysql_tidb db !! "tikv_gc_life_time"); by inversion Hold. }
  destruct (GCLifeTime_round_trip_aux db new Hpn (ex_intro _ old Hrow))
    as (Hup & Hread).
  eexists. split; [exact Hup|]. split; [exact Hread|].
  unfold UpdateGCLifeTime, sql.Exec. rewrite parse_update_plain by done.
  cbn [sql.mysql_tidb]. rewrite lookup_insert_eq, insert_insert_eq.
  destruct db as [m]. cbn in *. by rewrite insert_id.
Qed.

Lemma GCLifeTime_restore_witness :
  ∃ db1,
    UpdateGCLifeTime demoDB "720h0m0s" = (db1, None)
    ∧ ObtainGCLifeTime db1 = ("720h0m0s", None)
    ∧ UpdateGCLifeTime db1 "10m0s" = (demoDB, None).
Proof.
  apply (GCLifeTime_restore demoDB "10m0s" "720h0m0s"); reflexivity.
Defined.

(* ===================================================================== *)
(** ** Further properties of the rate-limited writer *)
(* ===================================================================== *)

Section Pacing_facts.

Lemma avail_eq lim t :
  rate.last lim ≤ t →
  avail lim t
  = Z.min (rate.burst lim * rate.unit_)
          (rate.tokens lim + Z.min rate.InfDuration (t - rate.last lim) * rate.limit lim).
Proof.
  intros Hl. unfold avail, rate.advance, rate.tokensFromDuration, rate.time_Sub.
  rewrite (proj2 (Z.ltb_ge t (rate.last lim))) by lia. cbn [snd].
  assert (0 ≤ Z.min rate.InfDuration (t - rate.last lim)) as H0.
  { apply Z.min_glb; [done|lia]. }
  rewrite (Z.max_r rate.minDuration) by (unfold rate.minDuration; lia).
  destruct (Z.ltb_spec (rate.burst lim * rate.unit_)
              (rate.tokens lim
               + Z.min rate.InfDuration (t - rate.last lim) * rate.limit lim)); lia.
Qed.

(** What [reserveN] does on a limiter with a non-zero rate. *)
Lemma reserveN_nonzero lim t n maxFutureReserve :
  rate.limit lim ≠ 0 →
  rate.reserveN lim t n maxFutureReserve =
  let tokens := avail lim t - n * rate.unit_ in
  let waitDuration :=
    if tokens <? 0 then rate.durationFromTokens (rate.limit lim) (- tokens) else 0 in
  if (n <=? rate.burst lim) && (waitDuration <=? maxFutureReserve) then
    ({| rate.ok := true; rate.r_tokens := n; rate.timeToAct := t + waitDuration;
        rate.r_limit := rate.limit lim |},
     {| rate.limit := rate.limit lim; rate.burst := rate.burst lim;
        rate.tokens := tokens; rate.last := t; rate.lastEvent := t + waitDuration |})
  else
    ({| rate.ok := false; rate.r_tokens := 0; rate.timeToAct := 0;
        rate.r_limit := rate.limit lim |}, lim).
Proof.
  intros Hl. unfold rate.reserveN. rewrite (proj2 (Z.eqb_neq _ 0)) by done.
  reflexivity.
Qed.

(** The wait for a deficit [d] at rate [C] pays it off to within one
    nanosecond of tokens. *)
Lemma durationFromTokens_bounds C d :
  0 < C → 0 ≤ d →
  let w := rate.durationFromTokens C d in
  0 ≤ w ∧ w * C ≤ d < w * C + C.
Proof.
  intros HC Hd w. subst w. unfold rate.durationFromTokens.
  rewrite (proj2 (Z.leb_gt C 0)) by lia.
  rewrite Z.quot_div_nonneg by lia.
  pose proof (Z.div_mod d C ltac:(lia)) as Hdm.
  pose proof (Z.mod_pos_bound d C HC) as Hm.
  assert (0 ≤ d / C) by (apply Z.div_pos; lia).
  nia.
Qed.

Lemma burst_nonneg : 0 ≤ burstLimit * rate.unit_.
Proof. done. Qed.

(** Time passing keeps a limiter paced. *)
Lemma paced_idle C t0 lim t t' B :
  0 < C → paced C t0 lim t B → t ≤ t' → paced C t0 lim t' B.
Proof.
  intros HC (Hlim & Hb & Hl & Hlow & Hup) Ht.
  unfold paced. rewrite avail_eq in * by lia. rewrite Hlim, Hb in *.
  pose proof burst_nonneg.
  split; [done|]. split; [done|]. split; [lia|].
  set (m := Z.min rate.InfDuration (t - rate.last lim)) in *.
  set (m' := Z.min rate.InfDuration (t' - rate.last lim)).
  assert (m ≤ m' ≤ m + (t' - t)) as Hm by (unfold m, m'; lia).
  split.
  - apply Z.min_glb_lt; [lia|].
    assert (rate.tokens lim + m * C ≤ rate.tokens lim + m' * C) by nia.
    destruct (Z.min_spec (burstLimit * rate.unit_) (rate.tokens lim + m * C))
      as [[? E]|[? E]]; rewrite E in Hlow; lia.
  - assert (Z.min (burstLimit * rate.unit_) (rate.tokens lim + m' * C)
            ≤ Z.min (burstLimit * rate.unit_) (rate.tokens lim + m * C) + (t' - t) * C).
    { assert (rate.tokens lim + m' * C ≤ rate.tokens lim + m * C + (t' - t) * C) by nia.
      assert (0 ≤ (t' - t) * C) by nia. lia. }
    lia.
Qed.

End Pacing_facts.

Section Pacing_step.

(** After a granted reservation, waiting out the delay leaves the limiter
    paced with the bytes charged. *)
Lemma paced_after_wait C t0 lim n t B wait lastEvent :
  0 < C → paced C t0 lim t B →
  let tokens := avail lim t - n * rate.unit_ in
  0 ≤ wait ≤ rate.InfDuration →
  (tokens < 0 → wait * C ≤ - tokens < wait * C + C) →
  (0 ≤ tokens → wait = 0) →
  paced C t0
    {| rate.limit := rate.limit lim; rate.burst := rate.burst lim;
       rate.tokens := tokens; rate.last := t; rate.lastEvent := lastEvent |}
    (t + wait) (B + n).
Proof.
  intros HC (Hlim & Hb & Hl & Hlow & Hup) tokens Hw Hneg Hpos.
  unfold paced. rewrite avail_eq by (cbn; lia).
  cbn [rate.limit rate.burst rate.tokens rate.last]. rewrite Hlim, Hb.
  pose proof burst_nonneg.
  split; [done|]. split; [done|]. split; [lia|].
  replace (t + wait - t) with wait by lia.
  rewrite (Z.min_r rate.InfDuration wait) by lia.
  destruct (Z.lt_ge_cases tokens 0) as [Hlt|Hge].
  - specialize (Hneg Hlt). split; [apply Z.min_glb_lt; lia|].
    unfold tokens in *. lia.
  - rewrite (Hpos Hge), Z.mul_0_l, Z.add_0_r in *. split; [apply Z.min_glb_lt; lia|].
    unfold tokens in *. lia.
Qed.

(** A reservation canceled before its delay is over gives its tokens back:
    the limiter stays paced with nothing charged. *)
Lemma paced_after_cancel C t0 lim n t B wait c :
  0 < C → paced C t0 lim t B →
  let tokens := avail lim t - n * rate.unit_ in
  0 < wait ≤ rate.InfDuration →
  wait * C ≤ - tokens →
  t < c < t + wait →
  paced C t0
    (rate.CancelAt
       {| rate.ok := true; rate.r_tokens := n; rate.timeToAct := t + wait;
          rate.r_limit := rate.limit lim |}
       {| rate.limit := rate.limit lim; rate.burst := rate.burst lim;
          rate.tokens := tokens; rate.last := t; rate.lastEvent := t + wait |} c)
    c B.
Proof.
  intros HC (Hlim & Hb & Hl & Hlow & Hup) tokens Hw Hdef Hc.
  pose proof burst_nonneg as Hbn.
  assert (0 < n * rate.unit_) as Hn by (unfold tokens in Hdef; nia).
  assert (0 < n) as Hn' by (unfold rate.unit_ in Hn; lia).
  unfold rate.CancelAt.
  cbn [rate.ok rate.r_tokens rate.timeToAct rate.r_limit rate.lastEvent negb].
  rewrite (proj2 (Z.eqb_neq n 0)) by lia.
  rewrite (proj2 (Z.ltb_ge (t + wait) c)) by lia. cbn [orb].
  replace (rate.tokensFromDuration (rate.limit lim)
             (rate.time_Sub (t + wait) (t + wait))) with 0
    by (unfold rate.tokensFromDuration, rate.time_Sub; by rewrite Z.sub_diag).
  rewrite Z.sub_0_r.
  rewrite (proj2 (Z.leb_gt (n * rate.unit_) 0)) by lia.
  set (lim1 := {| rate.limit := rate.limit lim; rate.burst := rate.burst lim;
                  rate.tokens := tokens; rate.last := t; rate.lastEvent := t + wait |}).
  change (rate.advance lim1 c) with (c, avail lim1 c). cbv iota beta.
  assert (avail lim1 c
          = Z.min (burstLimit * rate.unit_) (tokens + (c - t) * C)) as Ha.
  { rewrite avail_eq by (cbn; lia). cbn. rewrite Hlim, Hb.
    rewrite (Z.min_r rate.InfDuration (c - t)) by lia. done. }
  cbn [rate.burst lim1]. rewrite Ha, Hb.
  set (tokens3 := Z.min (burstLimit * rate.unit_) (tokens + (c - t) * C) + n * rate.unit_).
  set (tokens4 := if burstLimit * rate.unit_ <? tokens3
                  then burstLimit * rate.unit_ else tokens3).
  assert (tokens4 = Z.min (burstLimit * rate.unit_) tokens3) as Ht4.
  { unfold tokens4. destruct (Z.ltb_spec (burstLimit * rate.unit_) tokens3); lia. }
  unfold paced. rewrite avail_eq by (cbn; lia).
  cbn [rate.limit rate.burst rate.tokens rate.last].
  rewrite Z.sub_diag, (Z.min_r rate.InfDuration 0) by done.
  rewrite Z.mul_0_l, Z.add_0_r.
  rewrite ?Hlim, ?Hb, Ht4.
  split; [done|]. split; [done|]. split; [lia|].
  assert (0 < (c - t) * C) by nia.
  unfold tokens3, tokens in *. split; lia.
Qed.

(** [WaitN] keeps a limiter paced, charging the bytes only when it returns
    no error, and never returns before it was entered. *)
Lemma WaitN_paced C t0 lim ctx n t B :
  0 < C → 0 ≤ n → paced C t0 lim t B →
  ∃ err lim' t',
    rate.WaitN lim ctx n t = (err, lim', t')
    ∧ t ≤ t'
    ∧ paced C t0 lim' t' (B + credited n err).
Proof.
  intros HC Hn Hp. pose proof Hp as (Hlim & Hb & Hl & Hlow & Hup).
  assert (∀ e, paced C t0 lim t (B + credited n (Some e))) as Hsame.
  { intros e. cbn. by rewrite Z.add_0_r. }
  unfold rate.WaitN.
  destruct (Z.ltb_spec (rate.burst lim) n); [by eexists _, _, _|].
  destruct (context.done_by ctx t) eqn:Hdone; [by eexists _, _, _|].
  rewrite reserveN_nonzero by lia. cbv zeta.
  set (tokens := avail lim t - n * rate.unit_).
  set (waitLimit := match context.Deadline ctx with
                    | Some deadline => rate.time_Sub deadline t
                    | None => rate.InfDuration
                    end).
  assert (waitLimit ≤ rate.InfDuration) as Hwl.
  { unfold waitLimit, rate.time_Sub, rate.minDuration, rate.InfDuration.
    destruct (context.Deadline ctx); lia. }
  set (wait := if tokens <? 0
               then rate.durationFromTokens (rate.limit lim) (- tokens) else 0).
  assert (0 ≤ wait
          ∧ (tokens < 0 → wait * C ≤ - tokens < wait * C + C)
          ∧ (0 ≤ tokens → wait = 0)) as (Hw0 & Hwneg & Hwpos).
  { unfold wait. destruct (Z.ltb_spec tokens 0) as [Hlt|Hge].
    - rewrite Hlim.
      pose proof (durationFromTokens_bounds C (- tokens) HC ltac:(lia)) as Hd.
      cbv zeta in Hd. split; [lia|]. split; [intros _; lia|lia].
    - split; [done|]. split; [lia|done]. }
  destruct ((n <=? rate.burst lim) && (wait <=? waitLimit)) eqn:Hok;
    cbn [rate.ok negb]; [|by eexists _, _, _].
  apply andb_true_iff in Hok as [_ Hle]. apply Z.leb_le in Hle.
  unfold rate.DelayFrom. cbn [rate.ok rate.timeToAct].
  assert (rate.time_Sub (t + wait) t = wait) as ->.
  { unfold rate.time_Sub, rate.minDuration.
    replace (t + wait - t) with wait by lia. lia. }
  rewrite (proj2 (Z.ltb_ge wait 0)) by done.
  pose proof (paced_after_wait C t0 lim n t B wait (t + wait) HC Hp
                ltac:(lia) Hwneg Hwpos) as Hgo.
  destruct (Z.eqb_spec wait 0) as [Hz|Hnz].
  { eexists _, _, _. split; [done|]. split; [lia|].
    rewrite Hz, Z.add_0_r in Hgo. exact Hgo. }
  assert (paced C t0
            {| rate.limit := rate.limit lim; rate.burst := rate.burst lim;
               rate.tokens := tokens; rate.last := t; rate.lastEvent := t + wait |}
            (t + wait) (B + credited n None)) as Hgo' by exact Hgo.
  destruct (context.doneAt ctx) as [c|] eqn:Hc.
  2: { eexists _, _, _. split; [done|]. split; [lia|done]. }
  destruct (Z.ltb_spec c (t + wait)).
  2: { eexists _, _, _. split; [done|]. split; [lia|done]. }
  unfold context.done_by in Hdone. rewrite Hc in Hdone. apply Z.leb_gt in Hdone.
  eexists _, _, _. split; [done|]. split; [lia|].
  cbn [credited]. rewrite Z.add_0_r.
  apply (paced_after_cancel C t0 lim n t B wait c HC Hp); [lia| |lia].
  assert (tokens < 0) by (destruct (Z.lt_ge_cases tokens 0); [done|]; lia).
  lia.
Qed.

End Pacing_step.

Section Decorator_general.
Context {S W : Type} `{!ExternalFileWriter W} `{!ExternalStorage S W}.

(** A write keeps the writer's limiter paced: the inner write only lets time
    pass, and the wait charges the bytes when it ends without error. *)
Lemma Write_paced C t0 (rw : withRateLimitWriter W) lim ctx p t B n err rw' t' :
  0 < C →
  limiter rw = Some lim →
  paced C t0 lim t B →
  t ≤ (Write (inner_ExternalFileWriter rw) ctx p t).2 →
  0 ≤ (Write (inner_ExternalFileWriter rw) ctx p t).1.1.1 →
  withRateLimitWriter_Write rw ctx p t = ((n, err), rw', t') →
  ∃ lim', limiter rw' = Some lim' ∧ paced C t0 lim' t' (B + credited n err).
Proof.
  intros HC Hlim Hp Ht Hn. unfold withRateLimitWriter_Write. rewrite Hlim.
  destruct (Write (inner_ExternalFileWriter rw) ctx p t) as [[[n0 e0] w'] t1].
  cbn in Ht, Hn. pose proof (paced_idle C t0 lim t t1 B HC Hp Ht) as Hp1.
  destruct e0 as [e|].
  - intros [= <- <- <- <-]. exists lim. split; [done|]. cbn. by rewrite Z.add_0_r.
  - destruct (WaitN_paced C t0 lim ctx n0 t1 B HC Hn Hp1)
      as (e & lim' & t2 & -> & Hle & Hp2).
    destruct e; intros [= <- <- <- <-]; by exists lim'.
Qed.

Lemma writes_from_paced C t0 (rw0 : withRateLimitWriter W) lim0 rw t B :
  0 < C →
  limiter rw0 = Some lim0 →
  paced C t0 lim0 t0 0 →
  writes_from rw0 t0 rw t B →
  ∃ lim, limiter rw = Some lim ∧ paced C t0 lim t B.
Proof.
  intros HC Hlim0 Hp0 Hw. induction Hw as [|rw t B t' Hw IH Ht|
    rw t B ctx p n err rw' t' Hw IH Ht Hn Hwrite].
  - by exists lim0.
  - destruct IH as (lim & Hlim & Hp). exists lim. split; [done|].
    by apply (paced_idle C t0 lim t t' B).
  - destruct IH as (lim & Hlim & Hp).
    by apply (Write_paced C t0 rw lim ctx p t B n err rw' t').
Qed.

(** X8.  The throttling law.  Take the writer that [Create] hands out at
    instant [t0] under a ceiling [C > 0], and any history of writes on it
    (whatever the contexts and payloads, with any idle time in between).  At
    every instant [t] of that history, the bytes accepted by the writes that
    returned no error number at most [C] per second over [t - t0], to
    within one nanosecond. *)
Theorem Write_throughput_bound (inner : S) (C : Z) ctx name now rw0 s t0 rw t B :
  0 < C →
  burstLimit * rate.unit_ ≤ t0 →
  iface_Create (WithRatelimit inner C) ctx name now = (Ok (inr rw0), s, t0) →
  writes_from rw0 t0 rw t B →
  B * rate.unit_ < (t - t0 + 1) * C.
Proof.
  intros HC Ht0 Hcreate Hw.
  assert (limiter rw0
          = Some {| rate.limit := C; rate.burst := burstLimit; rate.tokens := 0;
                    rate.last := t0; rate.lastEvent := t0 |}) as Hlim0.
  { unfold WithRatelimit in Hcreate. rewrite (proj2 (Z.eqb_neq C 0)) in Hcreate by lia.
    unfold iface_Create in Hcreate. cbn [Create withRatelimit_ExternalStorage] in Hcreate.
    unfold withRatelimit_Create in Hcreate.
    cbn [inner_ExternalStorage Ratelimit] in Hcreate.
    destruct (Create inner ctx name now) as [[[w|e] s1] t1]; [|discriminate Hcreate].
    rewrite (proj2 (Z.ltb_lt 0 C)) in Hcreate by lia.
    injection Hcreate as <- _ <-.
    rewrite AllowN_fresh_burst; [done|lia|done|done|done]. }
  destruct (writes_from_paced C t0 rw0 _ rw t B HC Hlim0) as (lim & _ & Hp); [|done|].
  { unfold paced. rewrite avail_eq by (cbn; lia).
    cbn [rate.limit rate.burst rate.tokens rate.last].
    rewrite Z.sub_diag, (Z.min_r rate.InfDuration 0) by done.
    rewrite Z.mul_0_l, Z.add_0_r, (Z.min_r _ 0) by done.
    split; [done|]. split; [done|]. split; [lia|]. split; lia. }
  destruct Hp as (_ & _ & _ & Hlow & Hup). lia.
Qed.

(** X9.  The decorator never alters what reaches the sink: a write returns
    the inner write's byte count and leaves the inner sink as the inner write
    left it; when the inner write failed, or the writer has no limiter, the
    error and the instant of return are the inner write's as well; and a
    write never returns before its inner write did. *)
Theorem Write_transparent (rw : withRateLimitWriter W) ctx p now :
  let inner := Write (inner_ExternalFileWriter rw) ctx p now in
  let outer := withRateLimitWriter_Write rw ctx p now in
  outer.1.1.1 = inner.1.1.1
  ∧ inner_ExternalFileWriter outer.1.2 = inner.1.2
  ∧ (is_Some inner.1.1.2 ∨ limiter rw = None →
     outer.1.1.2 = inner.1.1.2 ∧ outer.2 = inner.2)
  ∧ inner.2 ≤ outer.2.
Proof.
  cbv zeta. unfold withRateLimitWriter_Write.
  destruct (limiter rw) as [lim|] eqn:Hlim;
    destruct (Write (inner_ExternalFileWriter rw) ctx p now) as [[[n0 e0] w'] t1];
    [|cbn; split; [done|]; split; [done|]; split; [done|lia]].
  destruct e0 as [e|]; [cbn; split; [done|]; split; [done|]; split; [done|lia]|].
  assert (∃ err lim' t2, rate.WaitN lim ctx n0 t1 = (err, lim', t2) ∧ t1 ≤ t2)
    as (err & lim' & t2 & -> & Hle).
  { unfold rate.WaitN.
    destruct (rate.burst lim <? n0); [by eexists _, _, _|].
    destruct (context.done_by ctx t1) eqn:Hdone; [by eexists _, _, _|].
    destruct (rate.reserveN lim t1 n0 _) as [r lim1].
    destruct (negb (rate.ok r)); [by eexists _, _, _|].
    assert (0 ≤ rate.DelayFrom r t1) as Hd.
    { unfold rate.DelayFrom. destruct (rate.ok r); [|done].
      destruct (Z.ltb_spec (rate.time_Sub (rate.timeToAct r) t1) 0); lia. }
    destruct (rate.DelayFrom r t1 =? 0); [by eexists _, _, _|].
    unfold context.done_by in Hdone.
    destruct (context.doneAt ctx) as [c|]; [|eexists _, _, _; split; [done|lia]].
    apply Z.leb_gt in Hdone.
    destruct (c <? t1 + rate.DelayFrom r t1); eexists _, _, _; (split; [done|lia]). }
  destruct err; cbn; (split; [done|]; split; [done|]; split; [|done]);
    intros [[? [=]]|[=]].
Qed.

(** X10.  A write that the inner sink accepts with more bytes than the
    limiter's burst returns an error although the bytes are in the sink; it
    does not wait and charges nothing. *)
Theorem Write_exceeds_burst (rw : withRateLimitWriter W) lim ctx p now n w' now' :
  limiter rw = Some lim →
  Write (inner_ExternalFileWriter rw) ctx p now = ((n, None), w', now') →
  rate.burst lim < n →
  withRateLimitWriter_Write rw ctx p now
  = ((n, Some (rate_ExceedsBurst n (rate.burst lim))),
     {| inner_ExternalFileWriter := w'; limiter := Some lim |}, now').
Proof.
  intros Hlim Hinner Hn. unfold withRateLimitWriter_Write.
  rewrite Hlim, Hinner. unfold rate.WaitN.
  by rewrite (proj2 (Z.ltb_lt (rate.burst lim) n)).
Qed.

(** X11.  Through the value [WithRatelimit inner C] returns, for an unsigned
    ceiling [C]: [Create] fails exactly when the inner [Create] fails, with
    its error and no writer; otherwise it hands out the inner writer itself
    when [C = 0], and when [C > 0] a wrapped writer around the inner writer
    whose limiter is never nil, so that the limiter-less branch of [Write]
    is not reached through it. *)
Theorem WithRatelimit_Create_cases (inner : S) (C : Z) ctx name now :
  0 ≤ C →
  let '(res0, s0, t0) := Create inner ctx name now in
  let '(res, s, t) := iface_Create (WithRatelimit inner C) ctx name now in
  t = t0
  ∧ match res0 with
    | Failed err => res = Failed err
    | Ok w =>
      if C =? 0 then res = Ok (inl w)
      else ∃ lim, res = Ok (inr {| inner_ExternalFileWriter := w;
                                   limiter := Some lim |})
    end.
Proof.
  intros HC. unfold WithRatelimit, iface_Create.
  destruct (Z.eqb_spec C 0) as [->|Hne].
  - destruct (Create inner ctx name now) as [[[w|e] s0] t0]; by cbn.
  - cbn [Create withRatelimit_ExternalStorage]. unfold withRatelimit_Create.
    cbn [inner_ExternalStorage Ratelimit].
    destruct (Create inner ctx name now) as [[[w|e] s0] t0]; [|done].
    rewrite (proj2 (Z.ltb_lt 0 C)) by lia.
    destruct (rate.AllowN _ t0 burstLimit) as [b lim]. split; [done|]. by exists lim.
Qed.

End Decorator_general.

(** One write of 500 bytes at 1000 bytes per second, on the writer created
    at [anInstant + 2 ms]: it returns half a second after the creation. *)
Lemma Write_throughput_bound_witness :
  ∃ rw t,
    writes_from demoWriter (anInstant + 2 * time_Millisecond) rw t
      (0 + credited 500 None)
    ∧ t = anInstant + 502 * time_Millisecond
    ∧ (0 + credited 500 None) * rate.unit_
      < (t - (anInstant + 2 * time_Millisecond) + 1) * 1000.
Proof.
  assert (∃ rw t,
            writes_from demoWriter (anInstant + 2 * time_Millisecond) rw t
              (0 + credited 500 None)
            ∧ t = anInstant + 502 * time_Millisecond) as (rw & t & Hw & Ht).
  { eexists _, _. split.
    - eapply (writes_step demoWriter _ demoWriter _ 0 context.Background (payload 500)).
      + apply writes_none.
      + by vm_compute.
      + by vm_compute.
      + vm_compute. reflexivity.
    - by vm_compute. }
  exists rw, t. split; [done|]. split; [done|].
  apply (Write_throughput_bound demoStorage 1000 context.Background "blob" anInstant
           demoWriter
           (inr {| inner_ExternalStorage :=
                     {| blobs := ["blob"]; capacity := 4096;
                        delay := 2 * time_Millisecond |};
                   Ratelimit := 1000 |})
           (anInstant + 2 * time_Millisecond) rw t).
  - lia.
  - by vm_compute.
  - reflexivity.
  - exact Hw.
Defined.

(** A write of 200 bytes on a limiter whose burst is 100. *)
Lemma Write_exceeds_burst_witness :
  withRateLimitWriter_Write tightWriter context.Background (payload 200) anInstant
  = ((200, Some (rate_ExceedsBurst 200 100)),
     {| inner_ExternalFileWriter :=
          {| blob := payload 200; room := 3896; latency := 2 * time_Millisecond |};
        limiter := limiter tightWriter |},
     anInstant + 2 * time_Millisecond).
Proof.
  refine (Write_exceeds_burst tightWriter
            {| rate.limit := 1000; rate.burst := 100; rate.tokens := 0;
               rate.last := anInstant; rate.lastEvent := anInstant |}
            context.Background (payload 200) anInstant 200 _ _ _ _ _).
  - reflexivity.
  - by vm_compute.
  - by vm_compute.
Defined.

Lemma WithRatelimit_Create_cases_witness :
  (iface_Create (WithRatelimit demoStorage 1000) context.Background "blob" anInstant).2
  = anInstant + 2 * time_Millisecond
  ∧ ∃ lim,
      (iface_Create (WithRatelimit demoStorage 1000) context.Background "blob"
         anInstant).1.1
      = Ok (inr {| inner_ExternalFileWriter :=
                     {| blob := []; room := 4096; latency := 2 * time_Millisecond |};
                   limiter := Some lim |}).
Proof.
  exact (WithRatelimit_Create_cases demoStorage 1000 context.Background "blob"
           anInstant ltac:(lia)).
Defined.

(* ===================================================================== *)
(** ** The schema bootstrap *)
(* ===================================================================== *)

Section gostrings_facts.

Import gostrings.

Lemma length_map_bytes f s : String.length (map_bytes f s) = String.length s.
Proof. induction s as [|c s IH]; [done|]. cbn. by rewrite IH. Qed.

Lemma str_app_cons c a b : String c a +:+ b = String c (a +:+ b).
Proof. done. Qed.

Lemma str_app_nil b : EmptyString +:+ b = b.
Proof. done. Qed.

Lemma str_app_assoc a b c : (a +:+ b) +:+ c = a +:+ (b +:+ c).
Proof.
  induction a as [|x a IH]; [done|]. by rewrite !str_app_cons, IH.
Qed.

Lemma map_bytes_app f a b : map_bytes f (a +:+ b) = map_bytes f a +:+ map_bytes f b.
Proof.
  induction a as [|c a IH]; [done|]. rewrite str_app_cons. cbn [map_bytes].
  by rewrite IH.
Qed.

Lemma isASCII_app a b : isASCII (a +:+ b) = isASCII a && isASCII b.
Proof.
  induction a as [|c a IH]; [done|]. rewrite str_app_cons. cbn [isASCII].
  by rewrite IH, andb_assoc.
Qed.

Lemma upper_byte_idem c : upper_byte (upper_byte c) = upper_byte c.
Proof. destruct c as [[] [] [] [] [] [] [] []]; reflexivity. Qed.

Lemma upper_byte_ascii c : is_ascii_byte (upper_byte c) = is_ascii_byte c.
Proof. destruct c as [[] [] [] [] [] [] [] []]; reflexivity. Qed.

Lemma map_upper_idem s :
  map_bytes upper_byte (map_bytes upper_byte s) = map_bytes upper_byte s.
Proof.
  induction s as [|c s IH]; [done|]. cbn [map_bytes].
  by rewrite upper_byte_idem, IH.
Qed.

Lemma isASCII_map_upper s : isASCII (map_bytes upper_byte s) = isASCII s.
Proof.
  induction s as [|c s IH]; [done|]. cbn [map_bytes isASCII].
  by rewrite upper_byte_ascii, IH.
Qed.

Lemma take_drop n s : take n s +:+ drop n s = s.
Proof.
  revert s. induction n as [|n IH]; intros [|c s]; try done.
  cbn [take drop]. by rewrite str_app_cons, IH.
Qed.

Lemma length_drop n s : String.length (drop n s) = (String.length s - n)%nat.
Proof.
  revert s. induction n as [|n IH]; intros [|c s]; by cbn.
Qed.

Lemma drop_map_bytes f n s : drop n (map_bytes f s) = map_bytes f (drop n s).
Proof. revert s. induction n as [|n IH]; intros [|c s]; cbn; try done. Qed.

Lemma take_map_bytes f n s : take n (map_bytes f s) = map_bytes f (take n s).
Proof.
  revert s. induction n as [|n IH]; intros [|c s]; cbn; try done. by rewrite IH.
Qed.

Lemma isASCII_take n s : isASCII s = true → isASCII (take n s) = true.
Proof.
  revert s. induction n as [|n IH]; intros [|c s]; cbn [take isASCII]; try done.
  intros [Hc Hs]%andb_true_iff. by rewrite Hc, IH.
Qed.

Lemma isASCII_drop n s : isASCII s = true → isASCII (drop n s) = true.
Proof.
  revert s. induction n as [|n IH]; intros [|c s]; cbn [drop isASCII]; try done.
  intros [Hc Hs]%andb_true_iff. by apply IH.
Qed.

Lemma HasPrefix_app p s : HasPrefix (p +:+ s) p = true.
Proof.
  induction p as [|a p IH]; [by destruct s|].
  rewrite str_app_cons. cbn [HasPrefix]. by rewrite bool_decide_eq_true_2, IH.
Qed.

Lemma HasPrefix_length s p :
  HasPrefix s p = true → (String.length p ≤ String.length s)%nat.
Proof.
  revert s. induction p as [|a p IH]; intros s; cbn; [lia|].
  destruct s as [|b s]; [done|]. intros [_ H]%andb_true_iff.
  cbn. apply IH in H. lia.
Qed.

(** Where [index] finds the substring, it fits in what is left of the string. *)
Lemma index_bound s sep i :
  index s sep = Some i → (i + String.length sep ≤ String.length s)%nat.
Proof.
  revert i. induction s as [|c s IH]; intros i; cbn [index].
  - destruct (HasPrefix "" sep) eqn:E; [|done].
    intros [= <-]. by apply HasPrefix_length in E.
  - destruct (HasPrefix (String c s) sep) eqn:E.
    + intros [= <-]. by apply HasPrefix_length in E.
    + destruct (index s sep) as [j|]; [|done]. cbn. intros [= <-].
      specialize (IH j eq_refl). cbn. lia.
Qed.

(** A string in which the substring occurs has an index. *)
Lemma index_occurs a sep b : is_Some (index (a +:+ sep +:+ b) sep).
Proof.
  induction a as [|c a IH].
  - rewrite str_app_nil. destruct (sep +:+ b) eqn:E; cbn [index];
      rewrite <- E, HasPrefix_app; eauto.
  - rewrite str_app_cons. cbn [index].
    destruct (HasPrefix _ sep); [eauto|]. destruct IH as [i ->]. cbn. eauto.
Qed.

Lemma Index_index s sep :
  Index s sep = match index s sep with Some i => Z.of_nat i | None => -1 end.
Proof. done. Qed.

End gostrings_facts.

(** The three cases of [toCreateTableIfNotExists] on ASCII text. *)
Lemma toCreateTableIfNotExists_ascii_aux (unicode_ToUpper : string → string) createTable :
  gostrings.isASCII createTable = true →
  let up := gostrings.map_bytes gostrings.upper_byte createTable in
  toCreateTableIfNotExists unicode_ToUpper createTable =
  Some (if (0 <=? gostrings.Index up "CREATE TABLE IF NOT EXISTS")
           || (gostrings.Index up "CREATE TABLE" <? 0)
        then createTable
        else gostrings.take (Z.to_nat (gostrings.Index up "CREATE TABLE")) up
             +:+ " CREATE TABLE IF NOT EXISTS "
             +:+ gostrings.drop (Z.to_nat (gostrings.Index up "CREATE TABLE") + 12)
                   createTable).
Proof.
  intros Hascii up. unfold toCreateTableIfNotExists, gostrings.ToUpper.
  rewrite Hascii. fold up.
  destruct (Z.ltb_spec (gostrings.Index up "CREATE TABLE IF NOT EXISTS") 0) as [Hg|Hg].
  2: { by rewrite (proj2 (Z.leb_le 0 _)) by done. }
  rewrite (proj2 (Z.leb_gt 0 _)) by done. cbn [orb].
  unfold gostrings.SplitN_2.
  destruct (Z.ltb_spec (gostrings.Index up "CREATE TABLE") 0) as [Hk|Hk]; [done|].
  rewrite Index_index in *.
  destruct (gostrings.index up "CREATE TABLE") as [i|] eqn:Hi; [|lia].
  apply index_bound in Hi. change (String.length "CREATE TABLE") with 12%nat in Hi.
  change (gostrings.len "CREATE TABLE") with 12.
  unfold gostrings.slice_from, gostrings.len.
  rewrite length_drop. unfold up in *. rewrite length_map_bytes in *.
  rewrite Nat2Z.id.
  replace (Z.to_nat (Z.of_nat i + 12)) with (i + 12)%nat by lia.
  set (L := String.length createTable) in *.
  replace (Z.of_nat L - Z.of_nat (L - (i + 12))) with (Z.of_nat (i + 12)) by lia.
  rewrite (proj2 (Z.ltb_ge (Z.of_nat (i + 12)) 0)) by lia.
  rewrite (proj2 (Z.ltb_ge (Z.of_nat L) (Z.of_nat (i + 12)))) by lia.
  cbn [orb]. by rewrite Nat2Z.id.
Qed.

(** X12.  On a statement made of ASCII bytes, [toCreateTableIfNotExists]
    never panics.  It returns the statement unchanged when its upper-cased
    text already contains [CREATE TABLE IF NOT EXISTS] or does not contain
    [CREATE TABLE]; otherwise it returns the upper-cased text before the
    first [CREATE TABLE] (in any letter case), then
    [ CREATE TABLE IF NOT EXISTS ], then the text after that keyword exactly
    as it was written. *)
Theorem toCreateTableIfNotExists_ascii (unicode_ToUpper : string → string) createTable :
  gostrings.isASCII createTable = true →
  let up := gostrings.map_bytes gostrings.upper_byte createTable in
  toCreateTableIfNotExists unicode_ToUpper createTable =
  Some (if (0 <=? gostrings.Index up "CREATE TABLE IF NOT EXISTS")
           || (gostrings.Index up "CREATE TABLE" <? 0)
        then createTable
        else gostrings.take (Z.to_nat (gostrings.Index up "CREATE TABLE")) up
             +:+ " CREATE TABLE IF NOT EXISTS "
             +:+ gostrings.drop (Z.to_nat (gostrings.Index up "CREATE TABLE") + 12)
                   createTable).
Proof. apply toCreateTableIfNotExists_ascii_aux. Qed.

Lemma toCreateTableIfNotExists_ascii_witness :
  toCreateTableIfNotExists id "/* demo */ create table t1 (Id int)"
  = Some "/* DEMO */  CREATE TABLE IF NOT EXISTS  t1 (Id int)".
Proof.
  exact (toCreateTableIfNotExists_ascii id "/* demo */ create table t1 (Id int)"
           eq_refl).
Defined.

(** X13.  On a statement made of ASCII bytes, the text that
    [toCreateTableIfNotExists] returns is a fixed point: applying the
    function to it returns it unchanged. *)
Theorem toCreateTableIfNotExists_idempotent (unicode_ToUpper : string → string)
    createTable guarded :
  gostrings.isASCII createTable = true →
  toCreateTableIfNotExists unicode_ToUpper createTable = Some guarded →
  toCreateTableIfNotExists unicode_ToUpper guarded = Some guarded.
Proof.
  intros Hascii Hres. pose proof Hres as Hres0.
  rewrite toCreateTableIfNotExists_ascii_aux in Hres by done. cbv zeta in Hres.
  destruct ((0 <=? _) || (_ <? 0)) eqn:Hcase; injection Hres as <-; [done|].
  set (up := gostrings.map_bytes gostrings.upper_byte createTable) in *.
  set (i := Z.to_nat (gostrings.Index up "CREATE TABLE")).
  set (r := gostrings.take i up +:+ " CREATE TABLE IF NOT EXISTS "
            +:+ gostrings.drop (i + 12) createTable).
  assert (gostrings.isASCII r = true) as Hr.
  { unfold r. rewrite !isASCII_app.
    rewrite isASCII_take by (unfold up; by rewrite isASCII_map_upper).
    by rewrite isASCII_drop. }
  rewrite toCreateTableIfNotExists_ascii_aux by done. cbv zeta.
  assert (0 ≤ gostrings.Index (gostrings.map_bytes gostrings.upper_byte r)
                "CREATE TABLE IF NOT EXISTS") as Hg.
  { unfold r. rewrite !map_bytes_app.
    change (gostrings.map_bytes gostrings.upper_byte " CREATE TABLE IF NOT EXISTS ")
      with (" " +:+ "CREATE TABLE IF NOT EXISTS" +:+ " ").
    set (A := gostrings.map_bytes gostrings.upper_byte (gostrings.take i up)).
    set (B := gostrings.map_bytes gostrings.upper_byte
                (gostrings.drop (i + 12) createTable)).
    replace (A +:+ (" " +:+ "CREATE TABLE IF NOT EXISTS" +:+ " ") +:+ B)
      with ((A +:+ " ") +:+ "CREATE TABLE IF NOT EXISTS" +:+ (" " +:+ B))
      by (by rewrite !str_app_assoc).
    rewrite Index_index.
    destruct (index_occurs (A +:+ " ") "CREATE TABLE IF NOT EXISTS" (" " +:+ B))
      as [j Hj].
    rewrite Hj. lia. }
  by rewrite (proj2 (Z.leb_le 0 _)) by done.
Qed.

Lemma toCreateTableIfNotExists_idempotent_witness :
  toCreateTableIfNotExists id "/* DEMO */  CREATE TABLE IF NOT EXISTS  t1 (Id int)"
  = Some "/* DEMO */  CREATE TABLE IF NOT EXISTS  t1 (Id int)".
Proof.
  apply (toCreateTableIfNotExists_idempotent id "/* demo */ create table t1 (Id int)").
  - reflexivity.
  - reflexivity.
Defined.

Section InitSchema_facts.
Variable unicode_ToUpper : string → string.
Context {Σ : Type} (cluster : Cluster Σ).

(** The table loop sends one statement per entry, in order, each the
    guarded form of the entry's text, until one fails or the guard panics. *)
Lemma InitSchema_range_log entries σ :
  let '(r, _, log) := InitSchema_range unicode_ToUpper cluster entries σ in
  (∀ q, q ∈ executed log →
     ∃ name v, (name, v) ∈ entries
               ∧ toCreateTableIfNotExists unicode_ToUpper v = Some q)
  ∧ match r with
    | Done None => Forall succeeded log ∧ length log = length entries
    | Done (Some e) =>
        ∃ pre q, log = pre ++ [EvExecute q (Some e)]
                 ∧ Forall succeeded pre ∧ (length pre < length entries)%nat
    | Panicked => Forall succeeded log ∧ (length log < length entries)%nat
    end.
Proof.
  revert σ. induction entries as [|[name v] rest IH]; intros σ.
  { cbn. split; [|by split]. intros q Hq. by apply elem_of_nil in Hq. }
  cbn [InitSchema_range]. unfold safeCreateTable.
  destruct (toCreateTableIfNotExists unicode_ToUpper v) as [q0|] eqn:Hq0.
  2: { split; [|split; [constructor|cbn; lia]].
       intros q Hq. by apply elem_of_nil in Hq. }
  destruct (Execute cluster σ q0) as [σ1 [e|]].
  - split.
    + intros q Hq. cbn in Hq. apply list_elem_of_singleton in Hq as ->.
      exists name, v. split; [left|done].
    + exists [], q0. split; [done|]. split; [constructor|cbn; lia].
  - specialize (IH σ1).
    destruct (InitSchema_range unicode_ToUpper cluster rest σ1) as [[r σ2] log].
    destruct IH as [Hsent Hshape]. split.
    + intros q Hq. cbn in Hq. apply elem_of_cons in Hq as [->|Hq].
      * exists name, v. split; [left|done].
      * destruct (Hsent q Hq) as (n' & v' & Hin & Hg).
        exists n', v'. split; [by right|done].
    + assert (succeeded (EvExecute q0 None)) as Hs by (by exists q0).
      destruct r as [[e|]|].
      * destruct Hshape as (pre & q & -> & Hpre & Hlen).
        exists (EvExecute q0 None :: pre), q.
        split; [done|]. split; [by constructor|cbn; lia].
      * destruct Hshape as [Hall Hlen]. split; [by constructor|cbn; lia].
      * destruct Hshape as [Hall Hlen]. split; [by constructor|cbn; lia].
Qed.

End InitSchema_facts.

(** X14.  Once its session exists, [InitSchema] sends [CREATE DATABASE],
    whose error it never looks at, then [USE] and the table statements; it
    stops at the first of these that fails and returns that error; it returns
    nil only after [USE] and one statement per table have all succeeded; and
    on every way out, a panic of the guard included, the session is closed
    as the last step. *)
Theorem InitSchema_fail_fast (unicode_ToUpper : string → string) {Σ : Type}
    (cluster : Cluster Σ) σ database tablesSchema :
  CreateSession cluster σ = None →
  let '(r, _, log) := InitSchema unicode_ToUpper cluster σ database tablesSchema in
  ∃ err1 stmts,
    log = [EvCreateSession None;
           EvExecute ("CREATE DATABASE IF NOT EXISTS " +:+ database) err1]
          ++ stmts ++ [EvSessionClose]
    ∧ match r with
      | Done None =>
          Forall succeeded stmts ∧ length stmts = S (size tablesSchema)
      | Done (Some e) =>
          ∃ pre q, stmts = pre ++ [EvExecute q (Some e)]
                   ∧ Forall succeeded pre ∧ (length pre ≤ size tablesSchema)%nat
      | Panicked =>
          Forall succeeded stmts ∧ (1 ≤ length stmts ≤ size tablesSchema)%nat
      end.
Proof.
  intros Hse. unfold InitSchema. rewrite Hse.
  destruct (Execute cluster σ _) as [σ1 err1].
  destruct (Execute cluster σ1 _) as [σ2 [e|]].
  { exists err1, [EvExecute ("USE " +:+ database) (Some e)]. split; [done|].
    exists [], ("USE " +:+ database). split; [done|]. split; [constructor|cbn; lia]. }
  pose proof (InitSchema_range_log unicode_ToUpper cluster
                (map_to_list tablesSchema) σ2) as Hr.
  destruct (InitSchema_range unicode_ToUpper cluster (map_to_list tablesSchema) σ2)
    as [[r σ3] log].
  destruct Hr as [_ Hshape]. rewrite length_map_to_list in Hshape.
  assert (succeeded (EvExecute ("USE " +:+ database) None)) as Hs by (by eexists).
  exists err1, (EvExecute ("USE " +:+ database) None :: log). split; [done|].
  destruct r as [[e|]|].
  - destruct Hshape as (pre & q & -> & Hpre & Hlen).
    exists (EvExecute ("USE " +:+ database) None :: pre), q.
    split; [done|]. split; [by constructor|cbn; lia].
  - destruct Hshape as [Hall Hlen]. split; [by constructor|cbn; lia].
  - destruct Hshape as [Hall Hlen]. split; [by constructor|cbn; lia].
Qed.

Lemma InitSchema_fail_fast_witness :
  let '(r, _, log) :=
    InitSchema id (recordingCluster "t2") [] "test" demoTablesSchema in
  ∃ err1 stmts,
    log = [EvCreateSession None;
           EvExecute ("CREATE DATABASE IF NOT EXISTS " +:+ "test") err1]
          ++ stmts ++ [EvSessionClose]
    ∧ match r with
      | Done None =>
          Forall succeeded stmts ∧ length stmts = S (size demoTablesSchema)
      | Done (Some e) =>
          ∃ pre q, stmts = pre ++ [EvExecute q (Some e)]
                   ∧ Forall succeeded pre ∧ (length pre ≤ size demoTablesSchema)%nat
      | Panicked =>
          Forall succeeded stmts ∧ (1 ≤ length stmts ≤ size demoTablesSchema)%nat
      end.
Proof.
  exact (InitSchema_fail_fast id (recordingCluster "t2") [] "test" demoTablesSchema
           eq_refl).
Defined.

(** What the run of the witness above is: the database statements, table
    [t1] created, table [t2] refused, the session closed. *)
Example InitSchema_demo :
  InitSchema id (recordingCluster "t2") [] "test" demoTablesSchema
  = (Done (Some sql_SyntaxError),
     [ "CREATE DATABASE IF NOT EXISTS test"; "USE test";
       " CREATE TABLE IF NOT EXISTS  t1 (id int)" ],
     [ EvCreateSession None;
       EvExecute "CREATE DATABASE IF NOT EXISTS test" None;
       EvExecute "USE test" None;
       EvExecute " CREATE TABLE IF NOT EXISTS  t1 (id int)" None;
       EvExecute " CREATE TABLE IF NOT EXISTS  t2 (id int)" (Some sql_SyntaxError);
       EvSessionClose ]).
Proof. by vm_compute. Qed.

(** X15.  Every statement [InitSchema] sends, besides [CREATE DATABASE] and
    [USE], is what [toCreateTableIfNotExists] returns for one of the texts of
    the table map; no table text is sent as it was given. *)
Theorem InitSchema_sends_guarded (unicode_ToUpper : string → string) {Σ : Type}
    (cluster : Cluster Σ) σ database tablesSchema q :
  q ∈ executed (InitSchema unicode_ToUpper cluster σ database tablesSchema).2 →
  q = "CREATE DATABASE IF NOT EXISTS " +:+ database
  ∨ q = "USE " +:+ database
  ∨ ∃ name sqlCreateTable,
      tablesSchema !! name = Some sqlCreateTable
      ∧ toCreateTableIfNotExists unicode_ToUpper sqlCreateTable = Some q.
Proof.
  unfold InitSchema.
  destruct (CreateSession cluster σ) as [e|].
  { cbn. intros H. by apply elem_of_nil in H. }
  destruct (Execute cluster σ _) as [σ1 err1].
  destruct (Execute cluster σ1 _) as [σ2 [e|]].
  { cbn. intros H. apply elem_of_cons in H as [->|H]; [by left|].
    apply list_elem_of_singleton in H as ->. right. by left. }
  pose proof (InitSchema_range_log unicode_ToUpper cluster
                (map_to_list tablesSchema) σ2) as Hr.
  destruct (InitSchema_range unicode_ToUpper cluster (map_to_list tablesSchema) σ2)
    as [[r σ3] log].
  destruct Hr as [Hsent _]. cbn [snd]. unfold executed in *.
  rewrite !omap_app. cbn [omap app]. rewrite app_nil_r.
  intros H. apply elem_of_cons in H as [->|H]; [by left|].
  apply elem_of_cons in H as [->|H]; [right; by left|].
  destruct (Hsent q H) as (name & v & Hin & Hg).
  right. right. exists name, v. split; [|done]. by apply elem_of_map_to_list.
Qed.

Lemma InitSchema_sends_guarded_witness :
  " CREATE TABLE IF NOT EXISTS  t1 (id int)"
  = "CREATE DATABASE IF NOT EXISTS " +:+ "test"
  ∨ " CREATE TABLE IF NOT EXISTS  t1 (id int)" = "USE " +:+ "test"
  ∨ ∃ name sqlCreateTable,
      demoTablesSchema !! name = Some sqlCreateTable
      ∧ toCreateTableIfNotExists id sqlCreateTable
        = Some " CREATE TABLE IF NOT EXISTS  t1 (id int)".
Proof.
  apply (InitSchema_sends_guarded id (recordingCluster "t2") [] "test"
           demoTablesSchema).
  vm_compute. right. right. left.
Defined.
